(** * QuickFF [Program]: the driver of the force-field derivation

    A shallow embedding of [lib/program.py]: the class [Program] with its
    methods [generate_trajectories], [estimate_from_pt], [refine_cost] and
    [plot_pt], and the properties of the trajectory cache, of the
    Force-Field Table built in stage 1 and of the refinement stage.

    The numerical collaborators ([RelaxedGeoPertTheory.generate] and
    [.estimate], [HessianFCCost.estimate], [cPickle]) are floating-point
    code of other modules: they are variables of the section below.  Console
    narration ([print], [sys.stdout.write]) touches no state that any
    property reads and is left out; [verbose] stays as an argument. *)

From Stdlib Require Import Ascii String.
From stdpp Require Import base option list strings gmap sorting.

(** ** Python exceptions and results *)

Inductive exn : Type :=
  | ValueError          (* max() of an empty sequence *)
  | KeyError (key : string)   (* d[key] on a missing key *)
  | IndexError          (* l[0] on an empty list *)
  | AssertionError      (* a failed assert *)
  | KeyboardInterrupt   (* user cancellation *)
  | UnpicklingError     (* cPickle.load on a malformed file *)
  | OtherError (msg : string).

#[export] Instance exn_eq_dec : EqDecision exn.
Proof. solve_decision. Defined.

Inductive Result (A : Type) : Type :=
  | Return (a : A)
  | Raise (e : exn).
Arguments Return {A} a.
Arguments Raise {A} e.

Definition returned {A} (r : Result A) : Prop := ∃ a, r = Return a.

(** ** Internal coordinates *)

(** An IC instance as the driver reads it: [ic.name], [ic.kunit],
    [ic.qunit]. *)
Record IC : Type := mkIC { name : string; kunit : string; qunit : string }.

#[export] Instance IC_eq_dec : EqDecision IC.
Proof. solve_decision. Defined.

(** [icname.startswith('dihed')] *)
Definition is_dihedral (icname : string) : bool := String.prefix "dihed" icname.

(** [sorted(d.keys())] for a dict with string keys: Python compares [str]
    byte by byte, a proper prefix first. *)
Definition sorted (l : list string) : list string := merge_sort String.le l.

Definition keys {V} (d : gmap string V) : list string := elements (dom d).

(** [d[k]]: raises [KeyError] on a missing key. *)
Definition getitem {V} (d : gmap string V) (k : string) : Result V :=
  match d !! k with
  | Some v => Return v
  | None => Raise (KeyError k)
  end.

(** [max([len(icname) for icname in names]) + 2]: [max] of an empty list
    raises [ValueError]. *)
Definition maxlength (names : list string) : Result nat :=
  match names with
  | [] => Raise ValueError
  | _ :: _ => Return (max_list (String.length <$> names) + 2)
  end.

(** [' ' * n]: the empty string when [n] is not positive. *)
Fixpoint spaces (n : nat) : string :=
  match n with
  | 0 => EmptyString
  | S n' => String " "%char (spaces n')
  end.

(** Lines 100 and 137, the name of a kind in the console report:
    [icname + ' '*(maxlength-len(icname))]. *)
Definition descr (maxlength : nat) (icname : string) : string :=
  icname +:+ spaces (maxlength - String.length icname).

(** [name.replace('/', '-')] *)
Fixpoint replace_slash (s : string) : string :=
  match s with
  | EmptyString => EmptyString
  | String c s' =>
      String (if Ascii.eqb c "/"%char then "-"%char else c) (replace_slash s')
  end.

(** ** The Force-Field Table *)

(** Modelled from the spec: [DataArray] of [quickff.fftable], which lies
    outside [lib/program.py]: an array of values in insertion order that
    carries a unit tag; [append] adds at the end. *)
Record DataArray (Val : Type) : Type :=
  mkDataArray { unit_tag : string; data : list Val }.
Arguments mkDataArray {Val} unit_tag data.
Arguments unit_tag {Val} d.
Arguments data {Val} d.

(** Modelled from the spec: [FFTable] of [quickff.fftable], which lies
    outside [lib/program.py]: one entry per IC kind-name, in insertion
    order, of two parallel arrays (force constants, rest values). *)
Abbreviation FFTable Val := (list (string * (DataArray Val * DataArray Val))).

Section FFTable.

Context {Val : Type}.

Definition DataArray_new (unit : string) : DataArray Val :=
  {| unit_tag := unit; data := [] |}.

Definition DataArray_append (a : DataArray Val) (v : Val) : DataArray Val :=
  {| unit_tag := unit_tag a; data := data a ++ [v] |}.

Definition FFTable_new : FFTable Val := [].


(** Modelled from the spec: [FFTable.add(name, ks, q0s)] appends a new kind
    entry and asserts that the name is not yet present. *)
Definition FFTable_add (ff : FFTable Val) (icname : string)
    (ks q0s : DataArray Val) : Result (FFTable Val) :=
  if bool_decide (icname ∈ ff.*1) then Raise AssertionError
  else Return (ff ++ [(icname, (ks, q0s))]).

(** Modelled from the spec: the bulk update of force constants of stage 2,
    which lies outside [lib/program.py]: one refined force constant per IC
    kind, taken over by every instance of that kind; rest values and unit
    tags are not touched, a kind without a refined constant keeps its
    values. *)
Definition FFTable_update_fcs (fcs : gmap string Val) (ff : FFTable Val)
    : FFTable Val :=
  (λ e : string * (DataArray Val * DataArray Val),
     match fcs !! e.1 with
     | Some k =>
         (e.1, ({| unit_tag := unit_tag e.2.1;
                   data := replicate (length (data e.2.1)) k |}, e.2.2))
     | None => e
     end) <$> ff.

End FFTable.

Section Program.

(** A trajectory, a fitted number (force constant or rest value), the
    content of a file, and the functional form of a potential term. *)
Context {Traj Val Bytes Term : Type}.

(** The trajectory store: IC instance name ↦ trajectory. *)
Abbreviation Store := (gmap string Traj).

(** *** The program object and the world it runs in *)

(** [self]: [self.system.ics], the keys and term types of
    [self.model.val.pot.terms], and [self.fns_traj]. *)
Record Program : Type := mkProgram {
  system_ics : gmap string (list IC);
  terms : gmap string Term;
  fns_traj : option string
}.

(** What [pert_theory.plot] and [pert_theory.write] are asked to render:
    the plot of a trajectory and its export, each with its file name.  The
    renderers are external; their files are kept apart from the files that
    the driver itself reads and writes, and the world keeps the requests
    made to them. *)
Inductive Export : Type :=
  | Plot (ic : IC) (t : Traj) (fn : string)
  | Write (t : Traj) (fn : string).

(** The mutable world: the files on disk, the calls made so far to
    [pert_theory.generate] (each with its [steps] argument, [None] for
    the default), the parameters held by [model.val], and the requests
    made to the external renderers. *)
Record World : Type := mkWorld {
  fs : gmap string Bytes;
  gen_log : list (IC * option nat);
  val : FFTable Val;
  exports : list Export
}.

(** *** Collaborators *)

(** [pert_theory.generate(ic, steps)]: the outcome may depend on the calls
    made before (a user may interrupt the third call, say). *)
Variable pt_generate : list (IC * option nat) → IC → option nat → Result Traj.
(** [pert_theory.estimate(ic, trajectory)] returns [(k, q0)]. *)
Variable pt_estimate : IC → Traj → Result (Val * Val).
(** [cost.estimate()] reads the parameters of the model. *)
Variable cost_estimate : FFTable Val → Result (gmap string Val).
(** [cPickle.dump] and [cPickle.load] *)
Variable pickle_dump : Store → Bytes.
Variable pickle_load : Bytes → option Store.
(** [pert_theory.plot(ic, trajectory, fn)] and
    [pert_theory.write(trajectory, fn)], the request as an [Export]: a
    renderer may raise, and what it does may depend on the requests made
    before. *)
Variable pt_render : list Export → Export → Result unit.

(** *** The monad of the driver: state and exceptions *)

Definition M (A : Type) : Type := World → Result A * World.

#[export] Instance M_ret : MRet M := λ A a w, (Return a, w).
#[export] Instance M_bind : MBind M := λ A B f m w,
  match m w with
  | (Return a, w') => f a w'
  | (Raise e, w') => (Raise e, w')
  end.

Definition lift {A} (r : Result A) : M A := λ w, (r, w).

(** [try: m  except KeyboardInterrupt: h] *)
Definition try_except_KeyboardInterrupt {A} (m : M A) (h : M A) : M A :=
  λ w, match m w with
       | (Raise KeyboardInterrupt, w') => h w'
       | rw => rw
       end.

(** [for x in l: s = body(s, x)] *)
Fixpoint for_each {A S} (body : S → A → M S) (l : list A) (s : S) : M S :=
  match l with
  | [] => mret s
  | x :: l' => s' ← body s x; for_each body l' s'
  end.

(** *** Primitive effects *)

Definition isfile (fn : string) : M bool :=
  λ w, (Return (bool_decide (is_Some (fs w !! fn))), w).

(** [with open(fn, 'r') as f: cPickle.load(f)] *)
Definition load_store (fn : string) : M Store :=
  λ w, match fs w !! fn with
       | Some b =>
           match pickle_load b with
           | Some s => (Return s, w)
           | None => (Raise UnpicklingError, w)
           end
       | None => (Raise (OtherError "IOError"), w)
       end.

(** [with open(fn, 'w') as f: cPickle.dump(trajectories, f)] *)
Definition dump_store (fn : string) (trajectories : Store) : M unit :=
  λ w, (Return tt,
        {| fs := <[fn := pickle_dump trajectories]> (fs w);
           gen_log := gen_log w; val := val w; exports := exports w |}).

(** [self.pert_theory.generate(ic, steps)] *)
Definition generate (ic : IC) (steps : option nat) : M Traj :=
  λ w, (pt_generate (gen_log w) ic steps,
        {| fs := fs w; gen_log := gen_log w ++ [(ic, steps)];
           val := val w; exports := exports w |}).

(** Modelled from the spec: [model.val.update_fftable], outside
    [lib/program.py]: the values of the table are taken over by the
    model. *)
Definition update_fftable (ff : FFTable Val) : M unit :=
  λ w, (Return tt,
        {| fs := fs w; gen_log := gen_log w; val := ff;
           exports := exports w |}).

(** Modelled from the spec: [model.val.update_fcs], outside
    [lib/program.py]: the bulk update of the force constants. *)
Definition update_fcs (fcs : gmap string Val) : M unit :=
  λ w, (Return tt,
        {| fs := fs w; gen_log := gen_log w;
           val := FFTable_update_fcs fcs (val w); exports := exports w |}).

(** Modelled from the spec: [model.val.get_fftable], outside
    [lib/program.py]: the table of the parameters the model holds. *)
Definition get_fftable : M (FFTable Val) := λ w, (Return (val w), w).

(** [self.pert_theory.plot(...)] and [self.pert_theory.write(...)], lines
    225 to 229: the request is made, and it returns or raises as the
    renderer does. *)
Definition export (e : Export) : M unit :=
  λ w, (pt_render (exports w) e,
        {| fs := fs w; gen_log := gen_log w; val := val w;
           exports := exports w ++ [e] |}).

(** *** [Program.generate_trajectories] *)

(** Line 103, the body of the inner loop. *)
Definition generate_ic (trajectories : Store) (ic : IC) : M Store :=
  t ← generate ic None;
  mret (<[name ic := t]> trajectories).

(** Lines 94 to 105, the body of the outer loop. *)
Definition generate_kind (self : Program) (skip_dihedrals : bool)
    (trajectories : Store) (icname : string) : M Store :=
  ics ← lift (getitem (system_ics self) icname);
  if skip_dihedrals && is_dihedral icname then mret trajectories
  else for_each generate_ic ics trajectories.

(** Lines 92 to 105: the trajectories generated from scratch. *)
Definition generate_all (self : Program) (skip_dihedrals : bool)
    (icnames : list string) : M Store :=
  for_each (generate_kind self skip_dihedrals) icnames ∅.

(** Lines 86 to 90: the store is read when a file name is given and the
    file exists. *)
Definition read_cache (self : Program) : M (option Store) :=
  match fns_traj self with
  | Some fn =>
      b ← isfile fn;
      if b : bool then (s ← load_store fn; mret (Some s)) else mret None
  | None => mret None
  end.

(** Lines 107 to 109, the same as lines 221 to 223. *)
Definition write_cache (self : Program) (trajectories : Store) : M unit :=
  match fns_traj self with
  | Some fn => dump_store fn trajectories
  | None => mret tt
  end.

Definition generate_trajectories (self : Program)
    (skip_dihedrals verbose : bool) : M Store :=
  _ ← lift (maxlength (keys (terms self)));
  cached ← read_cache self;
  match cached with
  | Some trajectories => mret trajectories
  | None =>
      trajectories ← generate_all self skip_dihedrals
                       (sorted (keys (terms self)));
      write_cache self trajectories;;
      mret trajectories
  end.

(** *** [Program.estimate_from_pt] *)

(** [l[0]]: raises [IndexError] on an empty list. *)
Definition item0 {A} (l : list A) : Result A :=
  match l with
  | x :: _ => Return x
  | [] => Raise IndexError
  end.

(** Lines 133 to 135, the body of the inner loop: one estimate, appended
    to both arrays. *)
Definition estimate_ic (trajectories : Store)
    (arrays : DataArray Val * DataArray Val) (ic : IC)
    : M (DataArray Val * DataArray Val) :=
  t ← lift (getitem trajectories (name ic));
  kq ← lift (pt_estimate ic t);
  mret (DataArray_append arrays.1 kq.1, DataArray_append arrays.2 kq.2).

(** Lines 127 to 141, the body of the outer loop. *)
Definition estimate_kind (self : Program) (trajectories : Store)
    (skip_dihedrals : bool) (ff : FFTable Val) (icname : string)
    : M (FFTable Val) :=
  ics ← lift (getitem (system_ics self) icname);
  if skip_dihedrals && is_dihedral icname then mret ff
  else
    ic0 ← lift (item0 ics);
    let ks := DataArray_new (kunit ic0) in
    ic0 ← lift (item0 ics);
    let q0s := DataArray_new (qunit ic0) in
    arrays ← for_each (estimate_ic trajectories) ics (ks, q0s);
    lift (FFTable_add ff icname arrays.1 arrays.2).

(** Lines 126 to 141: the loop over the kind-names. *)
Definition estimate_all (self : Program) (trajectories : Store)
    (skip_dihedrals : bool) (icnames : list string) (ff : FFTable Val)
    : M (FFTable Val) :=
  for_each (estimate_kind self trajectories skip_dihedrals) icnames ff.

Definition estimate_from_pt (self : Program) (trajectories : Store)
    (skip_dihedrals verbose : bool) : M (FFTable Val) :=
  let ff := FFTable_new in
  _ ← lift (maxlength (keys (terms self)));
  ff ← estimate_all self trajectories skip_dihedrals
         (sorted (keys (terms self))) ff;
  update_fftable ff;;
  mret ff.

(** *** [Program.refine_cost] *)

(** [self.cost.estimate()] *)
Definition cost_estimate_call : M (gmap string Val) :=
  λ w, (cost_estimate (val w), w).

Definition refine_cost (self : Program) (verbose : bool) : M (FFTable Val) :=
  fcs ← cost_estimate_call;
  update_fcs fcs;;
  fftab ← get_fftable;
  mret fftab.

(** *** [Program.plot_pt] *)

(** Lines 199 to 219: a trajectory is generated for the instances whose
    name the store lacks; an interrupted generation leaves the store as
    it is and the loop goes on. *)
Definition plot_generate_ic (trajectories : Store) (ic : IC) : M Store :=
  if bool_decide (is_Some (trajectories !! name ic))
  then mret trajectories
  else
    try_except_KeyboardInterrupt
      (t ← generate ic (Some 51);
       mret (<[name ic := t]> trajectories))
      (mret trajectories).

Definition plot_generate (ics : list IC) (trajectories : Store) : M Store :=
  for_each plot_generate_ic ics trajectories.

(** Lines 225 to 229: plots and trajectory files of the instances that
    have a trajectory. *)
Definition plot_output_ic (trajectories : Store) (_ : unit) (ic : IC)
    : M unit :=
  match trajectories !! name ic with
  | Some t =>
      let name := replace_slash (name ic) in
      export (Plot ic t ("energies-" +:+ name +:+ ".pdf"));;
      export (Write t ("trajectory-" +:+ name +:+ ".xyz"))
  | None => mret tt
  end.

Definition plot_output (ics : list IC) (trajectories : Store) : M unit :=
  for_each (plot_output_ic trajectories) ics tt.

Definition plot_pt (self : Program) (icname : string) (verbose : bool)
    : M unit :=
  cached ← read_cache self;
  let trajectories := default ∅ cached in
  ics ← lift (getitem (system_ics self) icname);
  trajectories ← plot_generate ics trajectories;
  write_cache self trajectories;;
  ics ← lift (getitem (system_ics self) icname);
  plot_output ics trajectories.

(** *** [Program.run] *)

(** Lines 168 to 172, the three stages of [run] on the model as
    [determine_dihedral_potentials] (line 166) left it: trajectories, with
    the default [skip_dihedrals=True]; the estimates from them, with the
    same default; the refinement.  The result is the table that [run]
    returns. *)
Definition run_stages (self : Program) : M (FFTable Val) :=
  trajectories ← generate_trajectories self true true;
  fftab ← estimate_from_pt self trajectories true true;
  fftab ← refine_cost self true;
  mret fftab.

(** *** Vocabulary of the properties *)

(** A kind-name is skipped when dihedrals are, and it names one. *)
Definition skipped (skip_dihedrals : bool) (icname : string) : bool :=
  skip_dihedrals && is_dihedral icname.

(** The kind-names of the potential-term set that are not skipped, in the
    order the loops visit them. *)
Definition processed_kinds (self : Program) (skip_dihedrals : bool)
    : list string :=
  filter (λ k, skipped skip_dihedrals k = false) (sorted (keys (terms self))).

(** The IC instances of the given kinds in the catalog, kind after kind. *)
Definition instances (self : Program) (icnames : list string) : list IC :=
  icnames ≫= λ k, default [] (system_ics self !! k).

(** The world after some more calls of [pert_theory.generate]. *)
Definition with_calls (w : World) (calls : list (IC * option nat)) : World :=
  {| fs := fs w; gen_log := gen_log w ++ calls;
     val := val w; exports := exports w |}.

(** The estimate of an instance: its trajectory is in the store and the
    fit gives the pair [kq]. *)
Definition estimated (trajectories : Store) (ic : IC) (kq : Val * Val)
    : Prop :=
  ∃ t, trajectories !! name ic = Some t ∧ pt_estimate ic t = Return kq.

(** The table entry of a kind: the catalog has at least one instance of
    it, the unit tags are those of the first one, and the two arrays hold
    the estimates of the instances, in the order of the catalog. *)
Definition entry_of (self : Program) (trajectories : Store)
    (icname : string) (e : string * (DataArray Val * DataArray Val)) : Prop :=
  ∃ ic0 ics kqs,
    system_ics self !! icname = Some (ic0 :: ics) ∧
    Forall2 (estimated trajectories) (ic0 :: ics) kqs ∧
    e = (icname, ({| unit_tag := kunit ic0; data := kqs.*1 |},
                  {| unit_tag := qunit ic0; data := kqs.*2 |})).

(** A kind that stage 1 can process: the catalog knows it and, unless it is
    skipped, has an instance of it, and every instance can be estimated. *)
Definition estimable (self : Program) (trajectories : Store)
    (skip_dihedrals : bool) (icname : string) : Prop :=
  ∃ ics, system_ics self !! icname = Some ics ∧
    (skipped skip_dihedrals icname = false →
     ics ≠ [] ∧ Forall (λ ic, ∃ kq, estimated trajectories ic kq) ics).

(** The world after [model.val] took over a table. *)
Definition with_val (w : World) (ff : FFTable Val) : World :=
  {| fs := fs w; gen_log := gen_log w; val := ff; exports := exports w |}.

(** What the call of the generator for [ic] gave, made as the [i]-th of
    [calls] after the world [w]. *)
Definition outcome (w : World) (calls : list (IC * option nat)) (i : nat)
    (ic : IC) : Result Traj :=
  pt_generate (gen_log w ++ take i calls) ic (Some 51).

(** The plots and trajectory files of the instances that have a trajectory,
    in the order of the catalog. *)
Definition exports_of (ics : list IC) (trajectories : Store) : list Export :=
  ics ≫= λ ic,
    match trajectories !! name ic with
    | Some t =>
        [Plot ic t ("energies-" +:+ replace_slash (name ic) +:+ ".pdf");
         Write t ("trajectory-" +:+ replace_slash (name ic) +:+ ".xyz")]
    | None => []
    end.

(** No readable cache: no file name is configured, or no such file. *)
Definition no_cache (self : Program) (w : World) : Prop :=
  match fns_traj self with
  | Some fn => fs w !! fn = None
  | None => True
  end.

(** The calls of [generate] with the default number of steps, one per
    instance. *)
Definition default_calls (ics : list IC) : list (IC * option nat) :=
  (λ ic, (ic, None)) <$> ics.

End Program.

(** ** A small molecule to run the driver on *)

Module Demo.

(** Trajectories and fitted values are numbers here; a file holds either a
    pickled store or something [cPickle] cannot read. *)
Definition Bytes : Type := option (gmap string nat).
Definition dump (s : gmap string nat) : Bytes := Some s.
Definition load (b : Bytes) : option (gmap string nat) := b.

Definition bond0 := mkIC "bond/C.H/0" "kjmol/A**2" "A".
Definition bond1 := mkIC "bond/C.H/1" "kjmol/A**2" "A".
Definition bend0 := mkIC "bend/H.C.H/0" "kjmol/rad**2" "deg".
Definition dihed0 := mkIC "dihed/H.C.C.H/0" "kjmol" "deg".

Definition ics : gmap string (list IC) :=
  {[ "bond/C.H" := [bond0; bond1]; "bend/H.C.H" := [bend0];
     "dihed/H.C.C.H" := [dihed0] ]}.

Definition pot_terms : gmap string unit :=
  {[ "bond/C.H" := tt; "bend/H.C.H" := tt; "dihed/H.C.C.H" := tt ]}.

(** The trajectory of the n-th call is the number n. *)
Definition gen (log : list (IC * option nat)) (ic : IC) (steps : option nat)
  : Result nat := Return (length log).

(** The user interrupts the second call. *)
Definition gen_interrupt (log : list (IC * option nat)) (ic : IC)
    (steps : option nat) : Result nat :=
  if decide (length log = 1) then Raise KeyboardInterrupt
  else Return (length log).

(** The second call fails to converge. *)
Definition gen_fail (log : list (IC * option nat)) (ic : IC)
    (steps : option nat) : Result nat :=
  if decide (length log = 1) then Raise (OtherError "ConvergenceFailure")
  else Return (length log).

(** Renderers that never fail, and renderers whose second request, the
    first trajectory file, fails. *)
Definition render_ok (log : list (@Export nat)) (e : @Export nat)
    : Result unit := Return tt.

Definition render_fail (log : list (@Export nat)) (e : @Export nat)
    : Result unit :=
  if decide (length log = 1) then Raise (OtherError "IOError") else Return tt.

(** k is the trajectory, q0 the length of the IC name. *)
Definition est (ic : IC) (t : nat) : Result (nat * nat) :=
  Return (t, String.length (name ic)).

Definition cost (ff : FFTable nat) : Result (gmap string nat) :=
  Return {[ "bond/C.H" := 7 ]}.


Definition prog (fn : option string) : @Program unit :=
  mkProgram ics pot_terms fn.

(** A model without potential terms. *)
Definition prog_no_terms (fn : option string) : @Program unit :=
  mkProgram ics ∅ fn.

(** A catalog that lists no bond. *)
Definition prog_no_bond (fn : option string) : @Program unit :=
  mkProgram (<["bond/C.H" := []]> ics) pot_terms fn.

(** A store as an earlier run with dihedrals left it, and the
    trajectories of a run without them. *)
Definition store0 : gmap string nat :=
  {[ "bond/C.H/0" := 10; "dihed/H.C.C.H/0" := 11 ]}.

Definition trajs : gmap string nat :=
  {[ "bond/C.H/0" := 3; "bond/C.H/1" := 4; "bend/H.C.H/0" := 5 ]}.

(** The store of a run from scratch without dihedrals: the n-th call gave
    the trajectory n. *)
Definition store_scratch : gmap string nat :=
  {[ "bend/H.C.H/0" := 0; "bond/C.H/0" := 1; "bond/C.H/1" := 2 ]}.

(** Trajectories that lack the second bond. *)
Definition trajs_partial : gmap string nat :=
  {[ "bond/C.H/0" := 3; "bend/H.C.H/0" := 5 ]}.

(** A catalog that does not know the dihedrals. *)
Definition prog_no_dihed (fn : option string) : @Program unit :=
  mkProgram (delete "dihed/H.C.C.H" ics) pot_terms fn.

(** The table of the three stages from scratch: the bonds have the refined
    force constant 7. *)
Definition table2 : FFTable nat :=
  [("bend/H.C.H", (mkDataArray "kjmol/rad**2" [0], mkDataArray "deg" [12]));
   ("bond/C.H", (mkDataArray "kjmol/A**2" [7; 7], mkDataArray "A" [10; 10]))].

(** The table of stage 1 for [trajs]. *)
Definition table1 : FFTable nat :=
  [("bend/H.C.H", (mkDataArray "kjmol/rad**2" [5], mkDataArray "deg" [12]));
   ("bond/C.H", (mkDataArray "kjmol/A**2" [3; 4], mkDataArray "A" [10; 10]))].

Definition world (files : gmap string Bytes) : @World nat nat Bytes :=
  mkWorld files [] [] [].

(** A world with one file, and a world whose model holds a table. *)
Definition world_file (fn : string) (b : Bytes) : @World nat nat Bytes :=
  world {[ fn := b ]}.

Definition world_table (ff : FFTable nat) : @World nat nat Bytes :=
  mkWorld ∅ [] ff [].

End Demo.

(** ** Properties *)

Section Properties.

Set Default Proof Using "Type".

Context {Traj Val Bytes Term : Type}.
Variable pt_generate : list (IC * option nat) → IC → option nat → Result Traj.
Variable pt_estimate : IC → Traj → Result (Val * Val).
Variable cost_estimate : FFTable Val → Result (gmap string Val).
Variable pickle_dump : gmap string Traj → Bytes.
Variable pickle_load : Bytes → option (gmap string Traj).
Variable pt_render : list (@Export Traj) → @Export Traj → Result unit.

(** A proof starts without the collaborators that its statement does not
    mention. *)
Ltac statement_only :=
  try clear pt_generate; try clear pt_estimate; try clear cost_estimate;
  try clear pickle_dump; try clear pickle_load; try clear pt_render.

Abbreviation W := (@World Traj Val Bytes).
Abbreviation Prog := (@Program Term).
Abbreviation MM := (@M Traj Val Bytes).

Implicit Types (w : W) (self : Prog) (ics : list IC) (ic : IC).
Implicit Types (trajectories : gmap string Traj) (icname : string).

(** *** The monad *)

Lemma run_bind {A B} (m : MM A) (f : A → MM B) w :
  (m ≫= f) w =
    match m w with
    | (Return a, w') => f a w'
    | (Raise e, w') => (Raise e, w')
    end.
Proof. reflexivity. Qed.

Lemma run_bind_Return {A B} (m : MM A) (f : A → MM B) w a w' :
  m w = (Return a, w') → (m ≫= f) w = f a w'.
Proof. intros H. by rewrite run_bind, H. Qed.

Lemma run_bind_Raise {A B} (m : MM A) (f : A → MM B) w e w' :
  m w = (Raise e, w') → (m ≫= f) w = (Raise e, w').
Proof. intros H. by rewrite run_bind, H. Qed.

Lemma run_bind_inv {A B} (m : MM A) (f : A → MM B) w r w' :
  (m ≫= f) w = (r, w') →
  (∃ a w1, m w = (Return a, w1) ∧ f a w1 = (r, w')) ∨
  (∃ e, m w = (Raise e, w') ∧ r = Raise e).
Proof.
  rewrite run_bind. destruct (m w) as [[a|e] w1]; intros H.
  - left. eauto.
  - right. exists e. by simplify_eq.
Qed.

Lemma run_lift {A} (r : Result A) w : (lift r : MM A) w = (r, w).
Proof. reflexivity. Qed.

Lemma run_ret {A} (a : A) w : (mret a : MM A) w = (Return a, w).
Proof. reflexivity. Qed.

Lemma for_each_app {A S} (body : S → A → MM S) l1 l2 s w :
  for_each body (l1 ++ l2) s w =
    (for_each body l1 s ≫= for_each body l2) w.
Proof.
  revert s w. induction l1 as [|x l1 IH]; intros s w; simpl.
  - reflexivity.
  - rewrite !run_bind. destruct (body s x w) as [[s'|e] w1]; [|done].
    by rewrite IH, run_bind.
Qed.

(** *** Sorted keys of a dict *)

Lemma elem_of_keys {V} (d : gmap string V) k : k ∈ keys d ↔ is_Some (d !! k).
Proof. unfold keys. by rewrite elem_of_elements, elem_of_dom. Qed.

Lemma elem_of_sorted l k : k ∈ sorted l ↔ k ∈ l.
Proof. unfold sorted. by rewrite merge_sort_Permutation. Qed.

Lemma elem_of_sorted_keys {V} (d : gmap string V) k :
  k ∈ sorted (keys d) ↔ is_Some (d !! k).
Proof. by rewrite elem_of_sorted, elem_of_keys. Qed.

Lemma NoDup_sorted_keys {V} (d : gmap string V) : NoDup (sorted (keys d)).
Proof.
  unfold sorted, keys. rewrite merge_sort_Permutation. apply NoDup_elements.
Qed.

Lemma StronglySorted_sorted l : StronglySorted String.le (sorted l).
Proof. apply StronglySorted_merge_sort; apply _. Qed.

Lemma keys_nil {V} (d : gmap string V) : keys d = [] ↔ d = ∅.
Proof.
  unfold keys. rewrite elements_empty_iff.
  split.
  - intros H%leibniz_equiv. by apply dom_empty_iff_L.
  - intros ->. by rewrite dom_empty_L.
Qed.

Lemma maxlength_keys {V} (d : gmap string V) :
  d ≠ ∅ → ∃ n, maxlength (keys d) = Return n.
Proof.
  intros Hd. destruct (keys d) as [|k l] eqn:E.
  - by apply keys_nil in E.
  - simpl. eauto.
Qed.

Lemma maxlength_keys_empty {V} (d : gmap string V) :
  d = ∅ → maxlength (keys d) = Raise ValueError.
Proof. intros Hd%keys_nil. by rewrite Hd. Qed.

Lemma maxlength_returned_nonempty {V} (d : gmap string V) n :
  maxlength (keys d) = Return n → d ≠ ∅.
Proof. intros H Hd. by rewrite (maxlength_keys_empty d Hd) in H. Qed.

(** *** The trajectory cache *)

Lemma read_cache_unset self w :
  fns_traj self = None → read_cache pickle_load self w = (Return None, w).
Proof. unfold read_cache. by intros ->. Qed.

Lemma read_cache_absent self w fn :
  fns_traj self = Some fn → fs w !! fn = None →
  read_cache pickle_load self w = (Return None, w).
Proof.
  unfold read_cache. intros -> Hfn.
  rewrite run_bind. unfold isfile. rewrite Hfn.
  rewrite bool_decide_eq_false_2; [done|]. by intros [? ?].
Qed.

Lemma read_cache_hit self w fn b s :
  fns_traj self = Some fn → fs w !! fn = Some b → pickle_load b = Some s →
  read_cache pickle_load self w = (Return (Some s), w).
Proof.
  unfold read_cache. intros -> Hfn Hb.
  rewrite run_bind. unfold isfile. rewrite Hfn.
  rewrite bool_decide_eq_true_2 by eauto.
  rewrite run_bind. unfold load_store. by rewrite Hfn, Hb.
Qed.

Lemma read_cache_corrupt self w fn b :
  fns_traj self = Some fn → fs w !! fn = Some b → pickle_load b = None →
  read_cache pickle_load self w = (Raise UnpicklingError, w).
Proof.
  unfold read_cache. intros -> Hfn Hb.
  rewrite run_bind. unfold isfile. rewrite Hfn.
  rewrite bool_decide_eq_true_2 by eauto.
  rewrite run_bind. unfold load_store. by rewrite Hfn, Hb.
Qed.

(** *** Calls of the generator *)

Lemma with_calls_nil w : with_calls w [] = w.
Proof. destruct w. unfold with_calls; simpl. by rewrite app_nil_r. Qed.

Lemma with_calls_app w c1 c2 :
  with_calls (with_calls w c1) c2 = with_calls w (c1 ++ c2).
Proof. unfold with_calls; simpl. by rewrite app_assoc. Qed.

Lemma run_generate ic steps w :
  generate pt_generate ic steps w =
    (pt_generate (gen_log w) ic steps, with_calls w [(ic, steps)]).
Proof. reflexivity. Qed.

Lemma run_generate_ic trajectories ic w :
  generate_ic pt_generate trajectories ic w =
    (match pt_generate (gen_log w) ic None with
     | Return t => Return (<[name ic := t]> trajectories)
     | Raise e => Raise e
     end, with_calls w [(ic, None)]).
Proof.
  unfold generate_ic. rewrite run_bind, run_generate.
  by destruct (pt_generate _ _ _).
Qed.

(** The inner loop calls the generator on the instances in turn, and
    stops at the first call that raises. *)
Lemma generate_ics_run ics trajectories w r w' :
  for_each (generate_ic pt_generate) ics trajectories w = (r, w') →
  ∃ calls, w' = with_calls w calls ∧
    calls `prefix_of` default_calls ics ∧
    ∀ t, r = Return t →
      calls = default_calls ics ∧
      dom t = dom trajectories ∪ list_to_set (name <$> ics).
Proof.
  statement_only.
  revert trajectories w. induction ics as [|ic ics IH]; intros trajs w; simpl.
  - rewrite run_ret. intros [= <- <-]. exists []. rewrite with_calls_nil.
    split_and!; [done|done|]. intros t [= <-]. split; [done|set_solver].
  - rewrite run_bind, run_generate_ic.
    destruct (pt_generate (gen_log w) ic None) as [t0|e].
    + intros (calls & -> & Hpre & Hret)%IH.
      exists ((ic, None) :: calls). rewrite with_calls_app.
      split_and!; [done|by apply prefix_cons|].
      intros t Ht. destruct (Hret t Ht) as [-> ->].
      split; [done|]. rewrite dom_insert_L. set_solver.
    + intros [= <- <-]. exists [(ic, None)].
      split_and!; [done|by apply prefix_cons, prefix_nil|done].
Qed.

(** The outer loop visits the kinds in turn and calls the generator on
    the instances of those that are not skipped. *)
Lemma generate_kinds_run self skip icnames trajectories w r w' :
  for_each (generate_kind pt_generate self skip) icnames trajectories w
    = (r, w') →
  let ics := instances self (filter (λ k, skipped skip k = false) icnames) in
  ∃ calls, w' = with_calls w calls ∧
    calls `prefix_of` default_calls ics ∧
    ∀ t, r = Return t →
      calls = default_calls ics ∧
      dom t = dom trajectories ∪ list_to_set (name <$> ics) ∧
      Forall (λ k, is_Some (system_ics self !! k)) icnames.
Proof.
  statement_only.
  revert trajectories w.
  induction icnames as [|k icnames IH]; intros trajs w; simpl.
  - rewrite run_ret. intros [= <- <-]. exists []. rewrite with_calls_nil.
    split_and!; [done|done|]. intros t [= <-].
    split_and!; [done|set_solver|done].
  - rewrite run_bind. unfold generate_kind at 1.
    rewrite run_bind, run_lift. unfold getitem.
    destruct (system_ics self !! k) as [ics|] eqn:Hk.
    2:{ intros [= <- <-]. exists []. rewrite with_calls_nil.
        split_and!; [done|apply prefix_nil|done]. }
    rewrite filter_cons. fold (skipped skip k).
    destruct (skipped skip k) eqn:Hskip.
    + rewrite run_ret. rewrite decide_False by done.
      intros (calls & -> & Hpre & Hret)%IH. exists calls.
      split_and!; [done|done|]. intros t Ht.
      destruct (Hret t Ht) as (-> & -> & Hall). split_and!; [done|done|].
      constructor; eauto.
    + rewrite decide_True by done. unfold instances. rewrite bind_cons, Hk.
      simpl. unfold default_calls. rewrite !fmap_app.
      destruct (for_each (generate_ic pt_generate) ics trajs w)
        as [[t1|e] w1] eqn:Hin.
      * apply generate_ics_run in Hin as (c1 & -> & _ & Hret1).
        destruct (Hret1 t1 eq_refl) as [-> Hdom1].
        intros (calls & -> & Hpre & Hret)%IH.
        exists (default_calls ics ++ calls). rewrite with_calls_app.
        split_and!; [done|by apply prefix_app|].
        intros t Ht. destruct (Hret t Ht) as (-> & -> & Hall).
        split_and!; [done| |constructor; eauto].
        rewrite Hdom1. set_solver.
      * apply generate_ics_run in Hin as (c1 & -> & Hpre1 & _).
        intros [= <- <-]. exists c1.
        split_and!; [done|by apply prefix_app_r|done].
Qed.

(** *** [generate_trajectories], case by case *)

Lemma read_cache_no_cache self w :
  no_cache self w → read_cache pickle_load self w = (Return None, w).
Proof.
  unfold no_cache. destruct (fns_traj self) as [fn|] eqn:Hfn; intros H.
  - by apply read_cache_absent with fn.
  - by apply read_cache_unset.
Qed.

Lemma run_write_cache self trajectories w :
  ∃ w', write_cache pickle_dump self trajectories w = (Return tt, w') ∧
    gen_log w' = gen_log w ∧ val w' = val w ∧ exports w' = exports w ∧
    match fns_traj self with
    | Some fn => fs w' = <[fn := pickle_dump trajectories]> (fs w)
    | None => w' = w
    end.
Proof.
  unfold write_cache. destruct (fns_traj self) as [fn|]; eexists; by eauto.
Qed.

(** An empty potential-term set: line 83 raises before anything else
    happens. *)
Lemma generate_trajectories_no_terms self skip verbose w :
  terms self = ∅ → generate_trajectories pt_generate pickle_dump pickle_load
                     self skip verbose w = (Raise ValueError, w).
Proof.
  intros Ht. unfold generate_trajectories.
  by rewrite run_bind, run_lift, (maxlength_keys_empty _ Ht).
Qed.

Lemma generate_trajectories_hit self skip verbose w fn b s :
  terms self ≠ ∅ → fns_traj self = Some fn → fs w !! fn = Some b →
  pickle_load b = Some s →
  generate_trajectories pt_generate pickle_dump pickle_load
    self skip verbose w = (Return s, w).
Proof.
  intros Ht Hfn Hb Hs. unfold generate_trajectories.
  destruct (maxlength_keys _ Ht) as [n Hn].
  rewrite run_bind, run_lift, Hn.
  by rewrite run_bind, (read_cache_hit _ _ _ _ _ Hfn Hb Hs).
Qed.

Lemma generate_trajectories_corrupt self skip verbose w fn b :
  terms self ≠ ∅ → fns_traj self = Some fn → fs w !! fn = Some b →
  pickle_load b = None →
  generate_trajectories pt_generate pickle_dump pickle_load
    self skip verbose w = (Raise UnpicklingError, w).
Proof.
  intros Ht Hfn Hb Hs. unfold generate_trajectories.
  destruct (maxlength_keys _ Ht) as [n Hn].
  rewrite run_bind, run_lift, Hn.
  by rewrite run_bind, (read_cache_corrupt _ _ _ _ Hfn Hb Hs).
Qed.

(** Without a readable cache the trajectories are generated, and written
    when all of them are there. *)
Lemma generate_trajectories_scratch self skip verbose w :
  terms self ≠ ∅ → no_cache self w →
  generate_trajectories pt_generate pickle_dump pickle_load
    self skip verbose w =
    match generate_all pt_generate self skip (sorted (keys (terms self))) w with
    | (Return t, w1) => (Return t, (write_cache pickle_dump self t w1).2)
    | (Raise e, w1) => (Raise e, w1)
    end.
Proof.
  intros Ht Hc. unfold generate_trajectories.
  destruct (maxlength_keys _ Ht) as [n Hn].
  rewrite run_bind, run_lift, Hn.
  rewrite run_bind, (read_cache_no_cache _ _ Hc).
  rewrite run_bind. destruct (generate_all _ _ _ _ w) as [[t|e] w1]; [|done].
  rewrite run_bind.
  by destruct (run_write_cache self t w1) as (w2 & -> & _).
Qed.

(** The file either exists or there is no readable cache. *)
Lemma cache_cases self w :
  (∃ fn b, fns_traj self = Some fn ∧ fs w !! fn = Some b) ∨ no_cache self w.
Proof.
  unfold no_cache. destruct (fns_traj self) as [fn|]; [|by right].
  destruct (fs w !! fn) as [b|] eqn:Hb; [left|right]; eauto.
Qed.

(** A call that raises has written no file. *)
Lemma generate_trajectories_raise_no_write self skip verbose w e w' :
  generate_trajectories pt_generate pickle_dump pickle_load
    self skip verbose w = (Raise e, w') → fs w' = fs w.
Proof.
  destruct (decide (terms self = ∅)) as [Ht|Ht].
  { rewrite generate_trajectories_no_terms by done. by intros [= <- <-]. }
  destruct (cache_cases self w) as [(fn & b & Hfn & Hb)|Hc].
  - destruct (pickle_load b) as [s|] eqn:Hs.
    + by rewrite (generate_trajectories_hit _ _ _ _ _ _ _ Ht Hfn Hb Hs).
    + rewrite (generate_trajectories_corrupt _ _ _ _ _ _ Ht Hfn Hb Hs).
      by intros [= <- <-].
  - rewrite generate_trajectories_scratch by done.
    unfold generate_all.
    destruct (for_each _ _ _ w) as [[t|e1] w1] eqn:Hg; [done|].
    intros [= <- <-].
    by apply generate_kinds_run in Hg as (calls & -> & _).
Qed.

(** *** The loops of [plot_pt] *)

Lemma gen_log_with_calls w calls :
  gen_log (with_calls w calls) = gen_log w ++ calls.
Proof. reflexivity. Qed.

Lemma run_plot_generate_ic trajectories ic w :
  plot_generate_ic pt_generate trajectories ic w =
    match trajectories !! name ic with
    | Some _ => (Return trajectories, w)
    | None =>
        (match pt_generate (gen_log w) ic (Some 51) with
         | Return t => Return (<[name ic := t]> trajectories)
         | Raise KeyboardInterrupt => Return trajectories
         | Raise e => Raise e
         end, with_calls w [(ic, Some 51)])
    end.
Proof.
  unfold plot_generate_ic. destruct (trajectories !! name ic) as [t|] eqn:Ht.
  - by rewrite bool_decide_eq_true_2 by eauto.
  - rewrite bool_decide_eq_false_2 by (by intros [? ?]).
    unfold try_except_KeyboardInterrupt. rewrite run_bind, run_generate.
    by destruct (pt_generate _ _ _) as [t|[]].
Qed.

(** The loop of lines 199 to 219 calls the generator only for names the
    store lacks, keeps what the store had, and adds the trajectories that
    the calls returned and nothing else; it raises only what a call raised
    that was not an interrupt. *)
Lemma plot_generate_run ics trajectories w r w' :
  for_each (plot_generate_ic pt_generate) ics trajectories w = (r, w') →
  ∃ calls, w' = with_calls w calls ∧
    calls.*1 `sublist_of` ics ∧
    Forall (λ c, c.2 = Some 51 ∧ trajectories !! name c.1 = None) calls ∧
    (∀ e, r = Raise e →
       e ≠ KeyboardInterrupt ∧
       ∃ i ic, calls !! i = Some (ic, Some 51) ∧
               outcome pt_generate w calls i ic = Raise e) ∧
    ∀ tf, r = Return tf →
      trajectories ⊆ tf ∧
      (∀ k t, tf !! k = Some t →
         trajectories !! k = Some t ∨
         ∃ i ic, calls !! i = Some (ic, Some 51) ∧ name ic = k ∧
                 outcome pt_generate w calls i ic = Return t) ∧
      (∀ i ic t, calls !! i = Some (ic, Some 51) →
         outcome pt_generate w calls i ic = Return t →
         tf !! name ic = Some t) ∧
      (∀ ic, ic ∈ ics → is_Some (tf !! name ic) ∨
         ∃ i, calls !! i = Some (ic, Some 51) ∧
              outcome pt_generate w calls i ic = Raise KeyboardInterrupt).
Proof.
  revert trajectories w. induction ics as [|ic ics IH]; intros trajs w; simpl.
  - rewrite run_ret. intros [= <- <-]. exists []. rewrite with_calls_nil.
    split_and!; [done|done|done|done|]. intros tf [= <-].
    split_and!; [done|by left|done|].
    intros ic Hic. by apply elem_of_nil in Hic.
  - rewrite run_bind, run_plot_generate_ic.
    destruct (trajs !! name ic) as [t0|] eqn:Hic.
    { intros (calls & -> & Hsub & Hall & Hraise & Hret)%IH. exists calls.
      split_and!; [done|by apply sublist_cons|done|done|].
      intros tf Htf. destruct (Hret tf Htf) as (Hsubs & Hnew & Hcalls & Hics).
      split_and!; [done|done|done|].
      intros ic' [->|Hin]%elem_of_cons; [|by apply Hics].
      left. exists t0. by eapply lookup_weaken. }
    unfold outcome in *.
    assert (Hlog : ∀ i calls,
              gen_log (with_calls w [(ic, Some 51)]) ++ take i calls
              = gen_log w ++ take (S i) ((ic, Some 51) :: calls)).
    { intros i calls. rewrite gen_log_with_calls. simpl.
      by rewrite <-app_assoc. }
    destruct (pt_generate (gen_log w) ic (Some 51)) as [t0|e] eqn:Hgen.
    + intros (calls & -> & Hsub & Hall & Hraise & Hret)%IH.
      exists ((ic, Some 51) :: calls). rewrite with_calls_app.
      split_and!; [done|by apply sublist_skip| | |].
      { constructor; [done|]. eapply Forall_impl; [exact Hall|].
        intros c [? [? _]%lookup_insert_None]. by split. }
      { intros e He. destruct (Hraise e He) as (Hne & i & ic' & Hi & Ho).
        split; [done|]. exists (S i), ic'. by rewrite <-Hlog. }
      intros tf Htf. destruct (Hret tf Htf) as (Hsubs & Hnew & Hcalls & Hics).
      split_and!.
      * etrans; [|exact Hsubs]. by apply insert_subseteq.
      * intros k t Hk. destruct (Hnew k t Hk) as [Hin|(i & ic' & Hi & Hn & Ho)].
        -- apply lookup_insert_Some in Hin as [[<- <-]|[_ ?]]; [|by left].
           right. exists 0, ic. simpl. by rewrite app_nil_r.
        -- right. exists (S i), ic'. rewrite <-Hlog. done.
      * intros [|i] ic' t; simpl.
        -- intros [= <-]. rewrite app_nil_r, Hgen. intros [= <-].
           eapply lookup_weaken; [|exact Hsubs]. by rewrite lookup_insert_eq.
        -- intros Hi Ho. apply (Hcalls i); [done|]. by rewrite Hlog.
      * intros ic' [->|Hin]%elem_of_cons.
        -- left. exists t0. eapply lookup_weaken; [|exact Hsubs].
           by rewrite lookup_insert_eq.
        -- destruct (Hics ic' Hin) as [?|(i & Hi & Ho)]; [by left|].
           right. exists (S i). by rewrite <-Hlog.
    + destruct (decide (e = KeyboardInterrupt)) as [->|Hne].
      2:{ intros Hrun.
          assert (r = Raise e ∧ w' = with_calls w [(ic, Some 51)]) as [-> ->].
          { destruct e; by simplify_eq/=. }
          exists [(ic, Some 51)].
          split_and!; [done|by apply sublist_skip, sublist_nil_l| | |done].
          - by constructor.
          - intros e' [= <-]. split; [done|]. exists 0, ic. simpl.
            by rewrite app_nil_r. }
      intros (calls & -> & Hsub & Hall & Hraise & Hret)%IH.
      exists ((ic, Some 51) :: calls). rewrite with_calls_app.
      split_and!; [done|by apply sublist_skip|by constructor| |].
      { intros e He. destruct (Hraise e He) as (Hne & i & ic' & Hi & Ho).
        split; [done|]. exists (S i), ic'. by rewrite <-Hlog. }
      intros tf Htf. destruct (Hret tf Htf) as (Hsubs & Hnew & Hcalls & Hics).
      split_and!; [done| | |].
      * intros k t Hk. destruct (Hnew k t Hk) as [Hin|(i & ic' & Hi & Hn & Ho)];
          [by left|].
        right. exists (S i), ic'. rewrite <-Hlog. done.
      * intros [|i] ic' t; simpl.
        -- intros [= <-]. by rewrite app_nil_r, Hgen.
        -- intros Hi Ho. apply (Hcalls i); [done|]. by rewrite Hlog.
      * intros ic' [->|Hin]%elem_of_cons.
        -- right. exists 0. simpl. by rewrite app_nil_r.
        -- destruct (Hics ic' Hin) as [?|(i & Hi & Ho)]; [by left|].
           right. exists (S i). by rewrite <-Hlog.
Qed.

(** Plotting and export touch nothing but the requests to the renderers:
    the loop of lines 225 to 229 makes the requests of [exports_of] and
    returns, unless a renderer raises, which ends it. *)
Lemma plot_output_run ics trajectories w :
  ∃ r w', plot_output pt_render ics trajectories w = (r, w') ∧
    fs w' = fs w ∧ gen_log w' = gen_log w ∧ val w' = val w ∧
    (r = Return tt →
     exports w' = exports w ++ exports_of ics trajectories) ∧
    (∀ e, r = Raise e → ∃ log x, pt_render log x = Raise e) ∧
    ((∀ log x, returned (pt_render log x)) → r = Return tt).
Proof.
  statement_only.
  unfold plot_output, exports_of. revert w.
  induction ics as [|ic ics IH]; intros w; simpl.
  - exists (Return tt), w. rewrite app_nil_r. split_and!; done.
  - rewrite run_bind. unfold plot_output_ic at 1.
    destruct (trajectories !! name ic) as [t|]; [|rewrite run_ret; apply IH].
    rewrite run_bind. unfold export at 1. cbv beta iota.
    destruct (pt_render (exports w) _) as [[]|e1] eqn:H1.
    2:{ eexists _, _. split; [reflexivity|]. simpl.
        split_and!; [done|done|done|done| |].
        - intros e [= <-]. eauto.
        - intros Hok.
          match type of H1 with pt_render ?l ?x = _ =>
            destruct (Hok l x) as [a Ha] end.
          rewrite Ha in H1. discriminate H1. }
    unfold export at 1. cbv beta iota.
    match goal with |- context [pt_render ?l ?x] =>
      destruct (pt_render l x) as [[]|e2] eqn:H2 end.
    2:{ eexists _, _. split; [reflexivity|]. simpl.
        split_and!; [done|done|done|done| |].
        - intros e [= <-]. eauto.
        - intros Hok.
          match type of H2 with pt_render ?l ?x = _ =>
            destruct (Hok l x) as [a Ha] end.
          rewrite Ha in H2. discriminate H2. }
    match goal with |- context [for_each _ ics tt ?w1] =>
      destruct (IH w1) as (r & w' & Hw & Hfs & Hlog & Hval & Hex & Hraise & Hok)
    end.
    exists r, w'. rewrite Hw. simpl in *.
    split_and!; [done|done|done|done| |done|done].
    intros Hr. rewrite (Hex Hr). by rewrite <-!app_assoc.
Qed.

(** *** The loops of [estimate_from_pt] *)

Lemma run_estimate_ic trajectories arrays ic w :
  estimate_ic pt_estimate trajectories arrays ic w =
    (match trajectories !! name ic with
     | None => Raise (KeyError (name ic))
     | Some t =>
         match pt_estimate ic t with
         | Return kq => Return (DataArray_append arrays.1 kq.1,
                                DataArray_append arrays.2 kq.2)
         | Raise e => Raise e
         end
     end, w).
Proof.
  unfold estimate_ic. rewrite run_bind, run_lift. unfold getitem.
  destruct (trajectories !! name ic) as [t|]; [|done].
  rewrite run_bind, run_lift. by destruct (pt_estimate ic t).
Qed.

(** The inner loop leaves the world alone; when it returns, every instance
    has been estimated and both arrays have grown by its estimate. *)
Lemma estimate_ics_run trajectories ics arrays w r w' :
  for_each (estimate_ic pt_estimate trajectories) ics arrays w = (r, w') →
  w' = w ∧
  ∀ arrays', r = Return arrays' →
    ∃ kqs, Forall2 (estimated pt_estimate trajectories) ics kqs ∧
      arrays' = ({| unit_tag := unit_tag arrays.1;
                    data := data arrays.1 ++ kqs.*1 |},
                 {| unit_tag := unit_tag arrays.2;
                    data := data arrays.2 ++ kqs.*2 |}).
Proof.
  revert arrays w. induction ics as [|ic ics IH]; intros [ks q0s] w; simpl.
  - rewrite run_ret. intros [= <- <-]. split; [done|].
    intros arrays' [= <-]. exists []. split; [constructor|].
    simpl. rewrite !app_nil_r. by destruct ks, q0s.
  - rewrite run_bind, run_estimate_ic.
    destruct (trajectories !! name ic) as [t|] eqn:Ht; [|by intros [= <- <-]].
    destruct (pt_estimate ic t) as [[k q0]|e] eqn:He; [|by intros [= <- <-]].
    intros [-> Hret]%IH. split; [done|].
    intros arrays' Ha. destruct (Hret arrays' Ha) as (kqs & Hall & ->).
    exists ((k, q0) :: kqs). split.
    + constructor; [|done]. exists t. done.
    + simpl. by rewrite <-!app_assoc.
Qed.

Lemma Forall2_entry_of_fst self trajectories kinds added :
  Forall2 (entry_of pt_estimate self trajectories) kinds added →
  added.*1 = kinds.
Proof.
  induction 1 as [|k e kinds added He _ IH]; csimpl; [done|].
  destruct He as (ic0 & ics & kqs & _ & _ & ->). by rewrite IH.
Qed.

(** The outer loop leaves the world alone; when it returns, the table has
    grown by one entry for every kind that is not skipped, in the order of
    the visit, and the catalog knows every kind. *)
Lemma estimate_kinds_run self trajectories skip icnames ff w r w' :
  for_each (estimate_kind pt_estimate self trajectories skip) icnames ff w
    = (r, w') →
  w' = w ∧
  ∀ ff', r = Return ff' →
    ∃ added, ff' = ff ++ added ∧
      Forall2 (entry_of pt_estimate self trajectories)
        (filter (λ k, skipped skip k = false) icnames) added ∧
      Forall (λ k, is_Some (system_ics self !! k)) icnames.
Proof.
  revert ff w. induction icnames as [|k icnames IH]; intros ff w; simpl.
  - rewrite run_ret. intros [= <- <-]. split; [done|].
    intros ff' [= <-]. exists []. rewrite app_nil_r.
    split_and!; [done|constructor|constructor].
  - rewrite run_bind. unfold estimate_kind at 1.
    rewrite run_bind, run_lift. unfold getitem.
    destruct (system_ics self !! k) as [ics|] eqn:Hk; [|by intros [= <- <-]].
    rewrite filter_cons. fold (skipped skip k).
    destruct (skipped skip k) eqn:Hskip.
    { rewrite run_ret, decide_False by done.
      intros [-> Hret]%IH. split; [done|]. intros ff' Hff.
      destruct (Hret ff' Hff) as (added & -> & Hall & Hcat).
      exists added. split_and!; [done|done|]. constructor; eauto. }
    rewrite decide_True by done.
    rewrite run_bind, run_lift.
    destruct ics as [|ic0 ics]; [by intros [= <- <-]|].
    simpl item0. cbv beta iota.
    rewrite run_bind, run_lift, run_bind.
    destruct (for_each _ (ic0 :: ics) _ w) as [[arrays|e] w1] eqn:Hin.
    2:{ apply estimate_ics_run in Hin as [-> _]. by intros [= <- <-]. }
    apply estimate_ics_run in Hin as [-> Hret1].
    destruct (Hret1 arrays eq_refl) as (kqs & Hkqs & ->). simpl.
    unfold FFTable_add. clear Hret1.
    case_bool_decide as Hdup; [by intros [= <- <-]|].
    intros [-> Hret]%IH. split; [done|]. intros ff' Hff.
    destruct (Hret ff' Hff) as (added & -> & Hall & Hcat).
    eexists (_ :: added). rewrite <-app_assoc. simpl.
    split_and!; [done| |constructor; eauto].
    constructor; [|done]. by exists ic0, ics, kqs.
Qed.

(** [estimate_from_pt] either returns the table of the processed kinds,
    which the model has taken over, or raises and changes nothing. *)
Lemma estimate_from_pt_inv self trajectories skip verbose w r w' :
  estimate_from_pt pt_estimate self trajectories skip verbose w = (r, w') →
  match r with
  | Return ff =>
      terms self ≠ ∅ ∧ w' = with_val w ff ∧
      Forall2 (entry_of pt_estimate self trajectories)
        (processed_kinds self skip) ff ∧
      Forall (λ k, is_Some (system_ics self !! k)) (sorted (keys (terms self)))
  | Raise e => w' = w
  end.
Proof.
  unfold estimate_from_pt. rewrite run_bind, run_lift.
  destruct (maxlength (keys (terms self))) as [n|e] eqn:Hn;
    [|by intros [= <- <-]].
  apply maxlength_returned_nonempty in Hn.
  rewrite run_bind. unfold estimate_all.
  destruct (for_each _ _ _ w) as [[ff|e] w1] eqn:Hloop.
  - apply estimate_kinds_run in Hloop as [-> Hret].
    destruct (Hret ff eq_refl) as (added & Hff & Hall & Hcat).
    unfold FFTable_new in Hff. simpl in Hff. subst added.
    rewrite run_bind. unfold update_fftable. rewrite run_ret.
    intros [= <- <-]. done.
  - apply estimate_kinds_run in Hloop as [-> _]. by intros [= <- <-].
Qed.

(** *** When the methods return *)

Lemma estimate_ics_returns trajectories ics arrays w :
  Forall (λ ic, ∃ kq, estimated pt_estimate trajectories ic kq) ics →
  ∃ arrays',
    for_each (estimate_ic pt_estimate trajectories) ics arrays w
      = (Return arrays', w).
Proof.
  intros Hall. revert arrays.
  induction Hall as [|ic ics (kq & t & Ht & He) _ IH]; intros arrays; simpl.
  - by eexists.
  - rewrite run_bind, run_estimate_ic, Ht, He. apply IH.
Qed.

Lemma estimate_kinds_returns self trajectories skip icnames ff w :
  NoDup icnames → (∀ k, k ∈ icnames → k ∉ ff.*1) →
  Forall (estimable pt_estimate self trajectories skip) icnames →
  ∃ ff',
    for_each (estimate_kind pt_estimate self trajectories skip) icnames ff w
      = (Return ff', w).
Proof.
  intros Hnodup Hfresh Hall. revert ff Hnodup Hfresh.
  induction Hall as [|k icnames (ics & Hk & Hok) _ IH];
    intros ff Hnodup Hfresh; simpl.
  - by eexists.
  - apply NoDup_cons in Hnodup as [Hk_notin Hnodup].
    rewrite run_bind. unfold estimate_kind at 1.
    rewrite run_bind, run_lift. unfold getitem. rewrite Hk.
    fold (skipped skip k). destruct (skipped skip k) eqn:Hskip.
    { rewrite run_ret. apply IH; [done|].
      intros k' Hk'. apply Hfresh. by right. }
    destruct (Hok eq_refl) as [Hne Hest].
    destruct ics as [|ic0 ics]; [done|]. rewrite run_bind, run_lift.
    simpl item0. cbv beta iota. rewrite run_bind, run_lift, run_bind.
    destruct (estimate_ics_returns trajectories (ic0 :: ics)
                (DataArray_new (kunit ic0), DataArray_new (qunit ic0)) w Hest)
      as (arrays & ->).
    rewrite run_lift. unfold FFTable_add.
    rewrite bool_decide_eq_false_2 by (apply Hfresh; by left).
    apply IH; [done|].
    intros k' Hk'. rewrite fmap_app, elem_of_app. intros [Hin|Hin].
    + eapply Hfresh; [by right|done].
    + apply list_elem_of_singleton in Hin. simpl in Hin. by subst k'.
Qed.

(** Stage 1 returns a table, which the model takes over, when the model has
    potential terms and each of their kinds can be processed. *)
Lemma estimate_from_pt_returns self trajectories skip verbose w :
  terms self ≠ ∅ →
  (∀ k, is_Some (terms self !! k) →
        estimable pt_estimate self trajectories skip k) →
  ∃ ff, estimate_from_pt pt_estimate self trajectories skip verbose w
          = (Return ff, with_val w ff).
Proof.
  intros Hne Hall. unfold estimate_from_pt.
  destruct (maxlength_keys _ Hne) as [n Hn].
  rewrite run_bind, run_lift, Hn. rewrite run_bind. unfold estimate_all.
  destruct (estimate_kinds_returns self trajectories skip
              (sorted (keys (terms self))) FFTable_new w) as (ff & ->).
  - apply NoDup_sorted_keys.
  - intros k _. apply not_elem_of_nil.
  - apply Forall_forall. intros k Hk%elem_of_sorted_keys. by apply Hall.
  - by exists ff.
Qed.

Lemma generate_ics_returns ics trajectories w :
  (∀ log ic, returned (pt_generate log ic None)) →
  ∃ t, for_each (generate_ic pt_generate) ics trajectories w
         = (Return t, with_calls w (default_calls ics)).
Proof.
  intros Hgen. revert trajectories w.
  induction ics as [|ic ics IH]; intros trajs w; simpl.
  - exists trajs. by rewrite with_calls_nil.
  - rewrite run_bind, run_generate_ic.
    destruct (Hgen (gen_log w) ic) as [t0 ->].
    destruct (IH (<[name ic := t0]> trajs) (with_calls w [(ic, None)]))
      as (t & ->).
    exists t. by rewrite with_calls_app.
Qed.

(** With a catalog that knows the kinds, the two nested loops make the
    calls of one loop over the instances of the kinds that are not
    skipped. *)
Lemma generate_kinds_flat self skip icnames trajectories w :
  Forall (λ k, is_Some (system_ics self !! k)) icnames →
  for_each (generate_kind pt_generate self skip) icnames trajectories w
  = for_each (generate_ic pt_generate)
      (instances self (filter (λ k, skipped skip k = false) icnames))
      trajectories w.
Proof.
  intros Hall. revert trajectories w.
  induction Hall as [|k icnames [ics Hk] _ IH]; intros trajs w; [done|].
  simpl. rewrite run_bind. unfold generate_kind at 1.
  rewrite run_bind, run_lift. unfold getitem. rewrite Hk.
  rewrite filter_cons. fold (skipped skip k).
  destruct (skipped skip k) eqn:Hskip.
  - rewrite run_ret, decide_False by done. apply IH.
  - rewrite decide_True by done. unfold instances. rewrite bind_cons, Hk.
    simpl. rewrite for_each_app, run_bind.
    destruct (for_each (generate_ic pt_generate) ics trajs w) as [[t|e] w1];
      [apply IH|done].
Qed.

Lemma generate_kinds_returns self skip icnames trajectories w :
  Forall (λ k, is_Some (system_ics self !! k)) icnames →
  (∀ log ic, returned (pt_generate log ic None)) →
  ∃ t w', for_each (generate_kind pt_generate self skip) icnames trajectories w
            = (Return t, w').
Proof.
  intros Hall Hgen. rewrite generate_kinds_flat by done.
  destruct (generate_ics_returns
              (instances self (filter (λ k, skipped skip k = false) icnames))
              trajectories w Hgen) as (t & ->).
  by eexists _, _.
Qed.

(** X4: without a readable cache, [generate_trajectories] returns when the
    model has potential terms, the catalog knows their kinds and no call of
    the generator raises. *)
Lemma generate_trajectories_returns self skip verbose w :
  terms self ≠ ∅ → no_cache self w →
  (∀ k, is_Some (terms self !! k) → is_Some (system_ics self !! k)) →
  (∀ log ic, returned (pt_generate log ic None)) →
  ∃ t w', generate_trajectories pt_generate pickle_dump pickle_load
            self skip verbose w = (Return t, w').
Proof.
  intros Hne Hc Hcat Hgen.
  rewrite generate_trajectories_scratch by done. unfold generate_all.
  assert (Hloop : ∀ icnames trajs w0,
            Forall (λ k, is_Some (system_ics self !! k)) icnames →
            ∃ t w1, for_each (generate_kind pt_generate self skip)
                      icnames trajs w0 = (Return t, w1)).
  { induction icnames as [|k icnames IH]; intros trajs w0 Hall; simpl.
    - by eexists _, _.
    - apply Forall_cons in Hall as [[ics Hk] Hall].
      rewrite run_bind. unfold generate_kind at 1.
      rewrite run_bind, run_lift. unfold getitem. rewrite Hk.
      destruct (skip && is_dihedral k).
      + rewrite run_ret. by apply IH.
      + destruct (generate_ics_returns ics trajs w0 Hgen) as (t & ->).
        by apply IH. }
  destruct (Hloop (sorted (keys (terms self))) ∅ w) as (t & w1 & ->).
  - apply Forall_forall. intros k Hk%elem_of_sorted_keys. by apply Hcat.
  - by eexists _, _.
Qed.

(** *** The cache of [generate_trajectories] *)

(** For every run of [generate_trajectories] where the potential-term set
    of the model is not empty, a trajectory file name is configured, the
    file exists and it deserializes to a store, the method returns that
    store and leaves the world as it was (no call of the perturbation
    generator, no file written); a second run in the world the first one
    left returns the same store, again without a call of the generator. *)
Lemma cache_hit_returns_store self skip verbose w fn b s :
  terms self ≠ ∅ → fns_traj self = Some fn → fs w !! fn = Some b →
  pickle_load b = Some s →
  ∃ w1, generate_trajectories pt_generate pickle_dump pickle_load
          self skip verbose w = (Return s, w1) ∧
    gen_log w1 = gen_log w ∧ fs w1 = fs w ∧
    ∃ w2, generate_trajectories pt_generate pickle_dump pickle_load
            self skip verbose w1 = (Return s, w2) ∧
      gen_log w2 = gen_log w1.
Proof.
  intros Ht Hfn Hb Hs.
  pose proof (generate_trajectories_hit self skip verbose w fn b s
                Ht Hfn Hb Hs) as Hrun.
  exists w. split_and!; [done|done|done|]. by exists w.
Qed.

(** X3: when [cPickle] reads back what it wrote, a first run that returned
    with a file name configured, from the cache or from scratch, leaves a
    cache from which any second run returns the same store without a call
    of the generator. *)
Lemma generate_trajectories_twice self skip verbose skip2 verbose2 w t w1 fn :
  (∀ s, pickle_load (pickle_dump s) = Some s) →
  fns_traj self = Some fn →
  generate_trajectories pt_generate pickle_dump pickle_load
    self skip verbose w = (Return t, w1) →
  generate_trajectories pt_generate pickle_dump pickle_load
    self skip2 verbose2 w1 = (Return t, w1).
Proof.
  intros Hrt Hfn.
  destruct (decide (terms self = ∅)) as [Ht|Ht].
  { by rewrite generate_trajectories_no_terms by done. }
  destruct (cache_cases self w) as [(fn' & b & Hfn' & Hb)|Hc].
  - destruct (pickle_load b) as [s|] eqn:Hs.
    + rewrite (generate_trajectories_hit _ _ _ _ _ _ _ Ht Hfn' Hb Hs).
      intros [= <- <-]. by eapply generate_trajectories_hit.
    + by rewrite (generate_trajectories_corrupt _ _ _ _ _ _ Ht Hfn' Hb Hs).
  - rewrite generate_trajectories_scratch by done.
    destruct (generate_all _ _ _ _ w) as [[t1|e] w2]; [|done].
    destruct (run_write_cache self t1 w2) as (w3 & Hw & _ & _ & _ & Hfs).
    rewrite Hw. simpl. intros [= <- <-]. rewrite Hfn in Hfs.
    eapply generate_trajectories_hit; [done|done| |apply Hrt].
    rewrite Hfs. apply lookup_insert_eq.
Qed.

(** If the persisted trajectory store exists but cannot be deserialized,
    [generate_trajectories] raises and changes nothing: no trajectory is
    generated and no file is written, so it never falls back to
    regeneration.  The exception that reaches the caller is the
    deserialization error when the potential-term set of the model is not
    empty. *)
Lemma corrupt_store_fails_fast self skip verbose w fn b :
  fns_traj self = Some fn → fs w !! fn = Some b → pickle_load b = None →
  (∃ e, generate_trajectories pt_generate pickle_dump pickle_load
          self skip verbose w = (Raise e, w)) ∧
  (terms self ≠ ∅ →
     generate_trajectories pt_generate pickle_dump pickle_load
       self skip verbose w = (Raise UnpicklingError, w)).
Proof.
  intros Hfn Hb Hs. split.
  - destruct (decide (terms self = ∅)) as [Ht|Ht].
    + exists ValueError. by apply generate_trajectories_no_terms.
    + exists UnpicklingError. by eapply generate_trajectories_corrupt.
  - intros Ht. by eapply generate_trajectories_corrupt.
Qed.

(** When the configured trajectory file exists, [generate_trajectories]
    leaves the world as it was (the cache file is not written, the
    generator is not called) and its outcome does not depend on
    [skip_dihedrals]; when moreover the potential-term set of the model is
    not empty and the file deserializes, the outcome is the store exactly
    as deserialized.  A call that changes the files is one that found no
    readable cache, generated the trajectories from scratch and returned
    them. *)
Lemma cache_hit_frame self skip verbose w fn b :
  fns_traj self = Some fn → fs w !! fn = Some b →
  (generate_trajectories pt_generate pickle_dump pickle_load
     self skip verbose w).2 = w ∧
  (∀ skip' verbose',
     generate_trajectories pt_generate pickle_dump pickle_load
       self skip' verbose' w
     = generate_trajectories pt_generate pickle_dump pickle_load
         self skip verbose w) ∧
  (∀ s, terms self ≠ ∅ → pickle_load b = Some s →
     (generate_trajectories pt_generate pickle_dump pickle_load
        self skip verbose w).1 = Return s) ∧
  (∀ w0 r0 w0', generate_trajectories pt_generate pickle_dump pickle_load
                  self skip verbose w0 = (r0, w0') →
     fs w0' ≠ fs w0 →
     fs w0 !! fn = None ∧
     ∃ t w1, generate_all pt_generate self skip (sorted (keys (terms self))) w0
               = (Return t, w1) ∧
             r0 = Return t ∧ fs w0' = <[fn := pickle_dump t]> (fs w0)).
Proof.
  intros Hfn Hb.
  assert (Hall : ∀ skip' verbose', ∃ r,
             generate_trajectories pt_generate pickle_dump pickle_load
               self skip' verbose' w = (r, w) ∧
             (∀ s, terms self ≠ ∅ → pickle_load b = Some s → r = Return s) ∧
             generate_trajectories pt_generate pickle_dump pickle_load
               self skip verbose w = (r, w)).
  { intros skip' verbose'.
    destruct (decide (terms self = ∅)) as [Ht|Ht].
    { exists (Raise ValueError).
      rewrite !generate_trajectories_no_terms by done. done. }
    destruct (pickle_load b) as [s|] eqn:Hs.
    - exists (Return s).
      rewrite !(generate_trajectories_hit _ _ _ _ _ _ _ Ht Hfn Hb Hs).
      split_and!; [done| |done]. by intros s' _ [= <-].
    - exists (Raise UnpicklingError).
      rewrite !(generate_trajectories_corrupt _ _ _ _ _ _ Ht Hfn Hb Hs).
      done. }
  split_and!.
  - destruct (Hall skip verbose) as (r & -> & _). done.
  - intros skip' verbose'.
    destruct (Hall skip' verbose') as (r & -> & _ & ->). done.
  - intros s Ht Hs. destruct (Hall skip verbose) as (r & -> & Hr & _).
    by apply Hr.
  - intros w0 r0 w0' Hrun Hne.
    destruct (decide (terms self = ∅)) as [Ht|Ht].
    { rewrite generate_trajectories_no_terms in Hrun by done.
      by simplify_eq. }
    destruct (cache_cases self w0) as [(fn' & b' & Hfn' & Hb')|Hc].
    { destruct (pickle_load b') as [s|] eqn:Hs.
      - rewrite (generate_trajectories_hit _ _ _ _ _ _ _ Ht Hfn' Hb' Hs)
          in Hrun. by simplify_eq.
      - rewrite (generate_trajectories_corrupt _ _ _ _ _ _ Ht Hfn' Hb' Hs)
          in Hrun. by simplify_eq. }
    rewrite generate_trajectories_scratch in Hrun by done.
    unfold no_cache in Hc. rewrite Hfn in Hc. split; [done|].
    destruct (generate_all _ _ _ _ w0) as [[t|e] w1] eqn:Hg.
    + destruct (run_write_cache self t w1) as (w2 & Hw & _ & _ & _ & Hfs).
      rewrite Hw in Hrun. simpl in Hrun. rewrite Hfn in Hfs.
      injection Hrun as <- <-. exists t, w1. split_and!; [done|done|].
      unfold generate_all in Hg.
      apply generate_kinds_run in Hg as (calls & -> & _). done.
    + injection Hrun as <- <-. unfold generate_all in Hg.
      apply generate_kinds_run in Hg as (calls & -> & _). done.
Qed.

(** *** Skipped and processed kinds *)

Lemma elem_of_processed_kinds self skip k :
  k ∈ processed_kinds self skip ↔
    is_Some (terms self !! k) ∧ skipped skip k = false.
Proof.
  unfold processed_kinds.
  rewrite list_elem_of_filter, elem_of_sorted_keys. naive_solver.
Qed.

(** Every call of [generate_trajectories] extends the log of the
    generator by calls for the instances of the processed kinds, in the
    order of the loops; all of them when it generated from scratch and
    returned. *)
Lemma generate_trajectories_calls self skip verbose w r w' :
  generate_trajectories pt_generate pickle_dump pickle_load
    self skip verbose w = (r, w') →
  let ics := instances self (processed_kinds self skip) in
  ∃ calls, gen_log w' = gen_log w ++ calls ∧
    calls `prefix_of` default_calls ics ∧
    (no_cache self w → ∀ t, r = Return t →
       calls = default_calls ics ∧
       dom t = list_to_set (name <$> ics)).
Proof.
  statement_only.
  intros Hrun ics.
  destruct (decide (terms self = ∅)) as [Ht|Ht].
  { rewrite generate_trajectories_no_terms in Hrun by done.
    injection Hrun as <- <-. exists []. rewrite app_nil_r.
    split_and!; [done|apply prefix_nil|done]. }
  destruct (cache_cases self w) as [(fn & b & Hfn & Hb)|Hc].
  { assert (w' = w ∧ ¬ no_cache self w) as [-> Hno].
    { split.
      - destruct (pickle_load b) as [s|] eqn:Hs.
        + rewrite (generate_trajectories_hit _ _ _ _ _ _ _ Ht Hfn Hb Hs)
            in Hrun. by simplify_eq.
        + rewrite (generate_trajectories_corrupt _ _ _ _ _ _ Ht Hfn Hb Hs)
            in Hrun. by simplify_eq.
      - unfold no_cache. rewrite Hfn, Hb. done. }
    exists []. rewrite app_nil_r. split_and!; [done|apply prefix_nil|done]. }
  rewrite generate_trajectories_scratch in Hrun by done.
  unfold generate_all in Hrun.
  destruct (for_each _ _ _ w) as [[t|e] w1] eqn:Hg.
  - destruct (run_write_cache self t w1) as (w2 & Hw & Hlog & _).
    rewrite Hw in Hrun. injection Hrun as <- <-.
    apply generate_kinds_run in Hg as (calls & -> & Hpre & Hret).
    destruct (Hret t eq_refl) as (-> & Hdom & _).
    exists (default_calls ics). rewrite Hlog.
    split_and!; [done|done|]. intros _ t' [= <-]. split; [done|].
    rewrite Hdom, dom_empty_L. fold ics. set_solver.
  - apply generate_kinds_run in Hg as (calls & -> & Hpre & _).
    injection Hrun as <- <-. exists calls. split_and!; [done|done|done].
Qed.



(** *** The Force-Field Table of stage 1 *)

(** The arrays of a table entry run parallel to the instances of its
    kind. *)
Lemma entry_of_parallel self trajectories icname e :
  entry_of pt_estimate self trajectories icname e →
  e.1 = icname ∧
  ∃ ics, system_ics self !! icname = Some ics ∧
    length (data e.2.1) = length ics ∧ length (data e.2.2) = length ics ∧
    ∀ i ic, ics !! i = Some ic →
      ∃ t k q0, trajectories !! name ic = Some t ∧
        pt_estimate ic t = Return (k, q0) ∧
        data e.2.1 !! i = Some k ∧ data e.2.2 !! i = Some q0.
Proof.
  intros (ic0 & ics & kqs & Hcat & Hall & ->). simpl. split; [done|].
  exists (ic0 :: ics). pose proof (Forall2_length _ _ _ Hall) as Hlen.
  rewrite !length_fmap. split_and!; [done|done|done|].
  intros i ic Hi.
  destruct (Forall2_lookup_l _ _ _ _ _ Hall Hi) as ([k q0] & Hkq & t & Ht & He).
  exists t, k, q0. rewrite !list_lookup_fmap, Hkq. done.
Qed.

(** C2: when [estimate_from_pt] returns, the table has one entry for every
    processed kind-name (the kinds of the potential-term set that are not
    skipped); in every entry both arrays are as long as the list of the IC
    instances of that kind in the catalog, and their i-th values are the
    force constant and the rest value that the estimator gave for the i-th
    instance and its trajectory. *)
Theorem C2_fftable_arrays_parallel self trajectories skip verbose w ff w' :
  estimate_from_pt pt_estimate
    self trajectories skip verbose w = (Return ff, w') →
  ff.*1 = processed_kinds self skip ∧
  (∀ k, k ∈ ff.*1 ↔ is_Some (terms self !! k) ∧ skipped skip k = false) ∧
  ∀ icname ks q0s, (icname, (ks, q0s)) ∈ ff →
    ∃ ics, system_ics self !! icname = Some ics ∧
      length (data ks) = length ics ∧ length (data q0s) = length ics ∧
      ∀ i ic, ics !! i = Some ic →
        ∃ t k q0, trajectories !! name ic = Some t ∧
          pt_estimate ic t = Return (k, q0) ∧
          data ks !! i = Some k ∧ data q0s !! i = Some q0.
Proof.
  intros (_ & _ & Hff & _)%estimate_from_pt_inv.
  pose proof (Forall2_entry_of_fst _ _ _ _ Hff) as Hkinds. split_and!.
  - done.
  - intros k. rewrite Hkinds. apply elem_of_processed_kinds.
  - intros icname ks q0s [j Hj]%list_elem_of_lookup_1.
    destruct (Forall2_lookup_r _ _ _ _ _ Hff Hj) as (k & _ & He).
    apply entry_of_parallel in He as [<- He]. exact He.
Qed.


(** C10: when a kind-name of the potential-term set that is not skipped
    has no IC instance in the catalog, [estimate_from_pt] raises, returns
    no table and leaves the model as it was; the exception is the indexing
    error of [ics[0]] when the kinds sorted before that kind have been
    processed without a failure. *)
Theorem C10_empty_kind_index_error self trajectories skip verbose w icname :
  is_Some (terms self !! icname) → skipped skip icname = false →
  system_ics self !! icname = Some [] →
  (∃ e, estimate_from_pt pt_estimate
          self trajectories skip verbose w = (Raise e, w)) ∧
  (∀ before after ff,
     sorted (keys (terms self)) = before ++ icname :: after →
     (estimate_all pt_estimate self trajectories skip before FFTable_new w).1
       = Return ff →
     estimate_from_pt pt_estimate
       self trajectories skip verbose w = (Raise IndexError, w)).
Proof.
  intros Hterm Hskip Hcat. split.
  - destruct (estimate_from_pt pt_estimate
                self trajectories skip verbose w) as [[ff|e'] w']
      eqn:Hrun; apply estimate_from_pt_inv in Hrun.
    2:{ subst w'. by exists e'. }
    exfalso. destruct Hrun as (_ & _ & Hff & _).
    assert (icname ∈ processed_kinds self skip) as [j Hj]%list_elem_of_lookup_1
      by by apply elem_of_processed_kinds.
    destruct (Forall2_lookup_l _ _ _ _ _ Hff Hj)
      as (entry & _ & ic0 & ics & kqs & Hcat' & _).
    congruence.
  - intros before after ff Hsplit Hbefore.
    assert (terms self ≠ ∅) as Hne.
    { intros Hempty. rewrite Hempty, lookup_empty in Hterm.
      by destruct Hterm. }
    destruct (maxlength_keys _ Hne) as [n Hn].
    unfold estimate_from_pt. rewrite run_bind, run_lift, Hn.
    rewrite run_bind. unfold estimate_all in *. rewrite Hsplit.
    rewrite for_each_app, run_bind.
    destruct (for_each _ before _ w) as [r1 w1] eqn:Hrun1.
    simpl in Hbefore. subst r1.
    apply estimate_kinds_run in Hrun1 as [-> _].
    simpl. rewrite run_bind. unfold estimate_kind at 1.
    rewrite run_bind, run_lift. unfold getitem. rewrite Hcat.
    fold (skipped skip icname). rewrite Hskip. done.
Qed.

(** *** [plot_pt] and its cache *)

(** A run of [plot_pt] on a kind of the catalog, from the store [s0] that
    the cache gave (empty without a cache).  The generator is called, with
    51 steps, only for instances of the kind whose name [s0] lacks.  Either
    one of these calls raises something else than an interrupt, which ends
    the run before the cache is written and before any request to the
    renderers; or the store [sf] is written, which holds [s0], the
    trajectories that the calls returned and nothing else, and the run then
    returns after all its requests to the renderers, unless one of them
    raises. *)
Lemma plot_pt_run self icname verbose w cached ics r w' :
  read_cache pickle_load self w = (Return cached, w) →
  system_ics self !! icname = Some ics →
  plot_pt pt_generate pickle_dump pickle_load pt_render self icname verbose w
    = (r, w') →
  let s0 := default ∅ cached in
  ∃ calls, gen_log w' = gen_log w ++ calls ∧
    calls.*1 `sublist_of` ics ∧
    Forall (λ c, c.2 = Some 51 ∧ s0 !! name c.1 = None) calls ∧
    ((∃ e, r = Raise e ∧ e ≠ KeyboardInterrupt ∧
        fs w' = fs w ∧ exports w' = exports w ∧
        ∃ i ic, calls !! i = Some (ic, Some 51) ∧
                outcome pt_generate w calls i ic = Raise e) ∨
     (∃ sf,
        match fns_traj self with
        | Some fn => fs w' = <[fn := pickle_dump sf]> (fs w)
        | None => fs w' = fs w
        end ∧
        s0 ⊆ sf ∧
        (∀ i ic t, calls !! i = Some (ic, Some 51) →
           outcome pt_generate w calls i ic = Return t →
           sf !! name ic = Some t) ∧
        (∀ k t, sf !! k = Some t →
           s0 !! k = Some t ∨
           ∃ i ic, calls !! i = Some (ic, Some 51) ∧ name ic = k ∧
                   outcome pt_generate w calls i ic = Return t) ∧
        (∀ ic, ic ∈ ics → is_Some (sf !! name ic) ∨
           ∃ i, calls !! i = Some (ic, Some 51) ∧
                outcome pt_generate w calls i ic = Raise KeyboardInterrupt) ∧
        (NoDup (name <$> ics) →
         ∀ i ic, calls !! i = Some (ic, Some 51) →
           outcome pt_generate w calls i ic = Raise KeyboardInterrupt →
           sf !! name ic = None) ∧
        ((r = Return tt ∧ exports w' = exports w ++ exports_of ics sf) ∨
         ∃ e log x, r = Raise e ∧ pt_render log x = Raise e) ∧
        ((∀ log x, returned (pt_render log x)) → r = Return tt))).
Proof.
  intros Hread Hcat Hrun s0. unfold plot_pt in Hrun.
  rewrite run_bind, Hread in Hrun. cbv zeta in Hrun. fold s0 in Hrun.
  rewrite run_bind, run_lift in Hrun. unfold getitem in Hrun.
  rewrite Hcat in Hrun. rewrite run_bind in Hrun. unfold plot_generate in Hrun.
  destruct (for_each _ ics s0 w) as [[sf|e] w1] eqn:Hgen;
    apply plot_generate_run in Hgen
      as (calls & -> & Hsub & Hall & Hraise & Hret).
  2:{ injection Hrun as <- <-. exists calls.
      split_and!; [done|done|done|]. left. exists e.
      destruct (Hraise e eq_refl) as [Hne Hcall]. done. }
  destruct (Hret sf eq_refl) as (Hsubs & Hnew & Hcalls & Hics).
  rewrite run_bind in Hrun.
  destruct (run_write_cache self sf (with_calls w calls))
    as (w2 & Hw & Hlog2 & _ & Hex2 & Hfs2).
  rewrite Hw in Hrun. rewrite run_bind, run_lift in Hrun.
  destruct (plot_output_run ics sf w2)
    as (r3 & w3 & Hout & Hfs3 & Hlog3 & _ & Hex3 & Hraise3 & Hok3).
  rewrite Hout in Hrun. injection Hrun as <- <-.
  exists calls. rewrite Hlog3, Hlog2.
  split_and!; [done|done|done|]. right. exists sf.
  split_and!; [|done|done|done|done| | |done].
  - rewrite Hfs3. destruct (fns_traj self); [done|by subst w2].
  - intros Hnodup i ic Hi Ho.
    destruct (sf !! name ic) as [t|] eqn:Hsf; [exfalso|done].
    destruct (Hnew _ _ Hsf) as [Hs0|(j & ic' & Hj & Hname & Ho')].
    + apply list_elem_of_lookup_2 in Hi.
      rewrite Forall_forall in Hall. destruct (Hall _ Hi) as [_ Hnone].
      simpl in Hnone. congruence.
    + assert (NoDup (name <$> calls.*1)) as Hnd.
      { assert (name <$> calls.*1 `sublist_of` name <$> ics) as Hs
          by (by apply fmap_sublist).
        eauto using sublist_NoDup. }
      assert (i = j) as <-.
      { eapply NoDup_lookup; [exact Hnd| |];
          rewrite !list_lookup_fmap;
          [by rewrite Hi|rewrite Hj; simpl; by rewrite Hname]. }
      assert (ic' = ic) as -> by congruence. congruence.
  - destruct r3 as [[]|e3].
    + left. split; [done|]. rewrite (Hex3 eq_refl). by rewrite Hex2.
    + right. destruct (Hraise3 e3 eq_refl) as (log & x & Hx). eauto.
Qed.

(** C4: [plot_pt] merges the cache per IC.  For a kind of the catalog and
    an existing store, the generator is called only for instances of the
    kind whose name the store lacks.  Unless one of these calls raises
    something else than an interrupt, the store is written at the end, and
    it holds every entry of the store that was read, every trajectory that
    a call returned, and nothing else; every instance of the kind then has
    its entry, the interrupted ones apart.  The run returns after that,
    unless a renderer raises. *)
Theorem C4_plot_pt_merges_cache self icname verbose w fn b s0 ics r w' :
  fns_traj self = Some fn → fs w !! fn = Some b → pickle_load b = Some s0 →
  system_ics self !! icname = Some ics →
  plot_pt pt_generate pickle_dump pickle_load pt_render self icname verbose w
    = (r, w') →
  ∃ calls, gen_log w' = gen_log w ++ calls ∧
    calls.*1 `sublist_of` ics ∧
    Forall (λ c, c.2 = Some 51 ∧ s0 !! name c.1 = None) calls ∧
    ((∃ e, r = Raise e ∧ e ≠ KeyboardInterrupt ∧ fs w' = fs w ∧
        ∃ i ic, calls !! i = Some (ic, Some 51) ∧
                outcome pt_generate w calls i ic = Raise e) ∨
     (∃ sf,
        fs w' = <[fn := pickle_dump sf]> (fs w) ∧
        s0 ⊆ sf ∧
        (∀ i ic t, calls !! i = Some (ic, Some 51) →
           outcome pt_generate w calls i ic = Return t →
           sf !! name ic = Some t) ∧
        (∀ k t, sf !! k = Some t →
           s0 !! k = Some t ∨
           ∃ i ic, calls !! i = Some (ic, Some 51) ∧ name ic = k ∧
                   outcome pt_generate w calls i ic = Return t) ∧
        (∀ ic, ic ∈ ics → is_Some (sf !! name ic) ∨
           ∃ i, calls !! i = Some (ic, Some 51) ∧
                outcome pt_generate w calls i ic = Raise KeyboardInterrupt) ∧
        (r = Return tt ∨
         ∃ e log x, r = Raise e ∧ pt_render log x = Raise e) ∧
        ((∀ log x, returned (pt_render log x)) → r = Return tt))).
Proof.
  intros Hfn Hb Hs Hcat Hrun.
  pose proof (read_cache_hit self w fn b s0 Hfn Hb Hs) as Hread.
  destruct (plot_pt_run self icname verbose w (Some s0) ics r w'
              Hread Hcat Hrun) as (calls & Hlog & Hsub & Hall & Hcases).
  exists calls. split_and!; [done|done|done|].
  destruct Hcases as [(e & Hr & Hne & Hfs & _ & Hcall)|
                      (sf & Hfs & Hsubs & Hcalls & Hnew & Hics & _ & Hr & Hok)].
  - left. exists e. done.
  - right. exists sf. rewrite Hfn in Hfs.
    split_and!; [done|done|done|done|done| |done].
    destruct Hr as [[Hr _]|Hr]; [by left|by right].
Qed.

(** X20: what [plot_pt] does on an interrupt, for a kind whose instances
    have distinct names: when the calls of the generator return or are
    interrupted, the store is written, and it holds the trajectory of every
    call that returned and no entry for an instance whose call was
    interrupted; the run returns after that, unless a renderer raises. *)
Lemma plot_pt_interrupt_safe self icname verbose w cached ics fn r w' :
  read_cache pickle_load self w = (Return cached, w) →
  system_ics self !! icname = Some ics →
  fns_traj self = Some fn → NoDup (name <$> ics) →
  plot_pt pt_generate pickle_dump pickle_load pt_render self icname verbose w
    = (r, w') →
  ∃ calls, gen_log w' = gen_log w ++ calls ∧
    ((∀ i ic e, calls !! i = Some (ic, Some 51) →
        outcome pt_generate w calls i ic = Raise e → e = KeyboardInterrupt) →
     ∃ sf, fs w' = <[fn := pickle_dump sf]> (fs w) ∧
       (∀ i ic, calls !! i = Some (ic, Some 51) →
          match outcome pt_generate w calls i ic with
          | Return t => sf !! name ic = Some t
          | Raise _ => sf !! name ic = None
          end) ∧
       (r = Return tt ∨
        ∃ e log x, r = Raise e ∧ pt_render log x = Raise e) ∧
       ((∀ log x, returned (pt_render log x)) → r = Return tt)).
Proof.
  intros Hread Hcat Hfn Hnodup Hrun.
  destruct (plot_pt_run self icname verbose w cached ics r w'
              Hread Hcat Hrun) as (calls & Hlog & Hsub & Hall & Hcases).
  exists calls. split; [done|]. intros Honly.
  destruct Hcases as [(e & _ & Hne & _ & _ & i & ic & Hi & Ho)|
                      (sf & Hfs & _ & Hcalls & _ & _ & Hint & Hr & Hok)].
  { by specialize (Honly i ic e Hi Ho). }
  rewrite Hfn in Hfs. exists sf. split_and!; [done| | |done].
  - intros i ic Hi.
    destruct (outcome pt_generate w calls i ic) as [t|e] eqn:Ho.
    + by eapply Hcalls.
    + rewrite (Honly i ic e Hi Ho) in Ho. by eapply Hint.
  - destruct Hr as [[Hr _]|Hr]; [by left|by right].
Qed.

(** *** [refine_cost] *)

Lemma run_refine_cost self verbose w :
  refine_cost cost_estimate self verbose w =
    match cost_estimate (val w) with
    | Return fcs =>
        (Return (FFTable_update_fcs fcs (val w)),
         with_val w (FFTable_update_fcs fcs (val w)))
    | Raise e => (Raise e, w)
    end.
Proof.
  unfold refine_cost. rewrite run_bind. unfold cost_estimate_call.
  by destruct (cost_estimate (val w)).
Qed.

(** A failure of the refiner leaves the table of stage 1 in the model. *)
Lemma refine_cost_failure self verbose w e :
  cost_estimate (val w) = Raise e →
  refine_cost cost_estimate self verbose w = (Raise e, w).
Proof. intros H. by rewrite run_refine_cost, H. Qed.

(** C7: [refine_cost] hands the force constants of the refiner to the bulk
    update and returns the table of the model.  In that table every kind
    keeps its place, its rest values and its unit tags, and the length of
    its array of force constants; a kind with a refined force constant has
    that one constant for every instance.  Files, generator log and
    exports are as before. *)
Theorem C7_refine_cost_updates_fcs_only self verbose w fcs :
  cost_estimate (val w) = Return fcs →
  ∃ w', refine_cost cost_estimate self verbose w = (Return (val w'), w') ∧
    fs w' = fs w ∧ gen_log w' = gen_log w ∧ exports w' = exports w ∧
    length (val w') = length (val w) ∧
    ∀ i icname ks q0s, val w !! i = Some (icname, (ks, q0s)) →
      ∃ ks', val w' !! i = Some (icname, (ks', q0s)) ∧
        unit_tag ks' = unit_tag ks ∧
        length (data ks') = length (data ks) ∧
        match fcs !! icname with
        | Some k => ∀ v, v ∈ data ks' → v = k
        | None => ks' = ks
        end.
Proof.
  intros Hcost. exists (with_val w (FFTable_update_fcs fcs (val w))).
  rewrite run_refine_cost, Hcost.
  split_and!; [done|done|done|done| |].
  - cbn [val with_val]. unfold FFTable_update_fcs. by rewrite length_fmap.
  - intros i icname ks q0s Hi. cbn [val with_val].
    assert (Hl : FFTable_update_fcs fcs (val w) !! i =
              Some (match fcs !! icname with
                    | Some k =>
                        (icname,
                         ({| unit_tag := unit_tag ks;
                             data := replicate (length (data ks)) k |}, q0s))
                    | None => (icname, (ks, q0s))
                    end)).
    { unfold FFTable_update_fcs. by rewrite list_lookup_fmap, Hi. }
    destruct (fcs !! icname) as [k|] eqn:Hk.
    + eexists. split_and!; [exact Hl|done|simpl; by rewrite length_replicate|].
      simpl. intros v Hv. by apply elem_of_replicate in Hv as [-> _].
    + exists ks. done.
Qed.

(** ** Further properties of the driver *)

(** *** The store that [generate_trajectories] builds *)

(** The dict after the inner loop: under the name of an instance that no
    later instance shares, the trajectory that the call for this instance
    returned; under a name of no instance, what was there before. *)
Lemma generate_ics_values ics trajectories w t w' :
  for_each (generate_ic pt_generate) ics trajectories w = (Return t, w') →
  (∀ i ic, ics !! i = Some ic →
     (∀ j ic', i < j → ics !! j = Some ic' → name ic' ≠ name ic) →
     ∃ tr, pt_generate (gen_log w ++ default_calls (take i ics)) ic None
             = Return tr ∧
           t !! name ic = Some tr) ∧
  (∀ k, (∀ ic, ic ∈ ics → name ic ≠ k) → t !! k = trajectories !! k).
Proof.
  revert trajectories w. induction ics as [|ic0 ics IH]; intros trajs w; simpl.
  - rewrite run_ret. intros [= <- <-]. split; [|done].
    intros i ic Hi. by rewrite lookup_nil in Hi.
  - rewrite run_bind, run_generate_ic.
    destruct (pt_generate (gen_log w) ic0 None) as [t0|e] eqn:Hgen; [|done].
    intros [Hval Hkeep]%IH. split.
    + intros [|i] ic Hi Hlast; simpl in Hi.
      * injection Hi as <-. exists t0. simpl. rewrite app_nil_r.
        split; [done|]. rewrite Hkeep, lookup_insert_eq; [done|].
        intros ic' [j Hj]%list_elem_of_lookup_1.
        apply (Hlast (S j) ic'); [lia|done].
      * destruct (Hval i ic Hi) as (tr & Htr & Ht).
        { intros j ic' Hij Hj. apply (Hlast (S j) ic'); [lia|done]. }
        exists tr. split; [|done].
        rewrite gen_log_with_calls, <-app_assoc in Htr. exact Htr.
    + intros k Hk. rewrite Hkeep.
      * apply lookup_insert_ne. apply Hk. by left.
      * intros ic Hic. apply Hk. by right.
Qed.

(** X1: the store that [generate_trajectories] returns when it generates
    from scratch holds, for every instance of a processed kind whose name no
    later instance shares, the trajectory that the generator returned on the
    call for that instance (an earlier instance of the same name is
    overwritten); it has no entry under any other name. *)
Theorem generate_trajectories_store_values self skip verbose w t w' :
  no_cache self w →
  generate_trajectories pt_generate pickle_dump pickle_load
    self skip verbose w = (Return t, w') →
  let ics := instances self (processed_kinds self skip) in
  (∀ i ic, ics !! i = Some ic →
     (∀ j ic', i < j → ics !! j = Some ic' → name ic' ≠ name ic) →
     ∃ tr, pt_generate (gen_log w ++ default_calls (take i ics)) ic None
             = Return tr ∧
           t !! name ic = Some tr) ∧
  (∀ k, is_Some (t !! k) → ∃ ic, ic ∈ ics ∧ name ic = k).
Proof.
  intros Hc Hrun ics.
  destruct (decide (terms self = ∅)) as [Ht|Ht].
  { by rewrite generate_trajectories_no_terms in Hrun by done. }
  rewrite generate_trajectories_scratch in Hrun by done.
  unfold generate_all in Hrun.
  destruct (for_each _ _ _ w) as [[t1|e] w1] eqn:Hg; [|done].
  injection Hrun as -> _.
  pose proof Hg as Hcat.
  apply generate_kinds_run in Hcat as (calls & _ & _ & Hret).
  destruct (Hret t eq_refl) as (_ & _ & Hcat).
  rewrite generate_kinds_flat in Hg by done.
  apply generate_ics_values in Hg as [Hval Hkeep]. split; [exact Hval|].
  intros k Hk. destruct (decide (k ∈ name <$> ics)) as [Hin|Hnotin].
  - apply list_elem_of_fmap in Hin as (ic & -> & Hic). by exists ic.
  - rewrite Hkeep, lookup_empty in Hk; [by destruct Hk|].
    intros ic Hic <-. apply Hnotin. by apply list_elem_of_fmap_2.
Qed.

(** X2: [generate_trajectories] looks every kind-name of the potential-term
    set up in the catalog before it asks whether the kind is skipped: when
    it has no readable cache and the catalog lacks a kind of the term set,
    be it a skipped dihedral, the call raises and writes no file; the
    exception is the [KeyError] of that kind when the catalog knows the
    kinds sorted before it and the generator does not raise. *)
Theorem generate_trajectories_unknown_kind self skip verbose w k :
  no_cache self w → is_Some (terms self !! k) → system_ics self !! k = None →
  (∃ e w', generate_trajectories pt_generate pickle_dump pickle_load
             self skip verbose w = (Raise e, w') ∧ fs w' = fs w) ∧
  (∀ before after,
     sorted (keys (terms self)) = before ++ k :: after →
     Forall (λ k', is_Some (system_ics self !! k')) before →
     (∀ log ic, returned (pt_generate log ic None)) →
     ∃ w', generate_trajectories pt_generate pickle_dump pickle_load
             self skip verbose w = (Raise (KeyError k), w') ∧ fs w' = fs w).
Proof.
  intros Hc Hterm Hk.
  assert (terms self ≠ ∅) as Hne.
  { intros Hempty. rewrite Hempty, lookup_empty in Hterm. by destruct Hterm. }
  split.
  - destruct (generate_trajectories pt_generate pickle_dump pickle_load
                self skip verbose w) as [[t|e] w'] eqn:Hrun.
    + exfalso. rewrite generate_trajectories_scratch in Hrun by done.
      unfold generate_all in Hrun.
      destruct (for_each _ _ _ w) as [[t1|e] w1] eqn:Hg; [|done].
      apply generate_kinds_run in Hg as (calls & _ & _ & Hret).
      destruct (Hret t1 eq_refl) as (_ & _ & Hcat).
      rewrite Forall_forall in Hcat.
      destruct (Hcat k) as [ics Hics]; [by apply elem_of_sorted_keys|].
      congruence.
    + exists e, w'. split; [done|].
      by eapply generate_trajectories_raise_no_write.
  - intros before after Hsplit Hbefore Hgen.
    assert (∃ w', generate_trajectories pt_generate pickle_dump pickle_load
                    self skip verbose w = (Raise (KeyError k), w'))
      as [w' Hrun].
    { rewrite generate_trajectories_scratch by done. unfold generate_all.
      rewrite Hsplit, for_each_app, run_bind.
      destruct (generate_kinds_returns self skip before ∅ w Hbefore Hgen)
        as (t1 & w1 & ->).
      simpl. rewrite run_bind. unfold generate_kind at 1.
      rewrite run_bind, run_lift. unfold getitem. rewrite Hk. by eexists. }
    exists w'. split; [done|].
    by eapply generate_trajectories_raise_no_write.
Qed.

(** *** The table of [estimate_from_pt] *)

(** X5: [estimate_from_pt] returns a table, and the model takes it over,
    when the model has potential terms and, for each of their kinds, the
    catalog knows the kind and, unless the kind is skipped, lists an
    instance of it and every instance has a trajectory that the estimator
    fits; the assertion of [FFTable.add] does not fail, since the kinds are
    the keys of a dict. *)
Theorem estimate_from_pt_total self trajectories skip verbose w :
  terms self ≠ ∅ →
  (∀ k, is_Some (terms self !! k) →
        estimable pt_estimate self trajectories skip k) →
  ∃ ff, estimate_from_pt pt_estimate self trajectories skip verbose w
          = (Return ff, with_val w ff) ∧
        ff.*1 = processed_kinds self skip.
Proof.
  intros Hne Hall.
  destruct (estimate_from_pt_returns self trajectories skip verbose w Hne Hall)
    as [ff Hrun].
  exists ff. split; [done|].
  apply estimate_from_pt_inv in Hrun as (_ & _ & Hff & _).
  by eapply Forall2_entry_of_fst.
Qed.

(** X6: [estimate_from_pt] needs a trajectory under the name of every
    instance of every processed kind: when the store has none for such an
    instance, the call raises, returns no table and leaves the model as it
    was; the exception is the [KeyError] of the name of that instance when
    the kinds sorted before its kind and the instances listed before it
    have been estimated. *)
Theorem estimate_from_pt_missing_trajectory self trajectories skip verbose w
    k ics ic :
  is_Some (terms self !! k) → skipped skip k = false →
  system_ics self !! k = Some ics → ic ∈ ics →
  trajectories !! name ic = None →
  (∃ e, estimate_from_pt pt_estimate
          self trajectories skip verbose w = (Raise e, w)) ∧
  (∀ before after pre post,
     sorted (keys (terms self)) = before ++ k :: after →
     ics = pre ++ ic :: post →
     returned
       (estimate_all pt_estimate self trajectories skip before FFTable_new w).1 →
     Forall (λ ic', ∃ kq, estimated pt_estimate trajectories ic' kq) pre →
     estimate_from_pt pt_estimate self trajectories skip verbose w
       = (Raise (KeyError (name ic)), w)).
Proof.
  intros Hterm Hskip Hcat Hic Hnone. split.
  - destruct (estimate_from_pt pt_estimate self trajectories skip verbose w)
      as [[ff|e'] w'] eqn:Hrun; apply estimate_from_pt_inv in Hrun.
    2:{ subst w'. by exists e'. }
    exfalso. destruct Hrun as (_ & _ & Hff & _).
    assert (k ∈ processed_kinds self skip) as [j Hj]%list_elem_of_lookup_1
      by by apply elem_of_processed_kinds.
    destruct (Forall2_lookup_l _ _ _ _ _ Hff Hj) as (entry & _ & Hentry).
    apply entry_of_parallel in Hentry as (_ & ics' & Hcat' & _ & _ & Hpar).
    rewrite Hcat in Hcat'. injection Hcat' as <-.
    apply list_elem_of_lookup_1 in Hic as [i Hi].
    destruct (Hpar i ic Hi) as (t' & _ & _ & Ht' & _). congruence.
  - intros before after pre post Hsplit Hics [ff1 Hbefore] Hpre.
    assert (terms self ≠ ∅) as Hne.
    { intros Hempty. rewrite Hempty, lookup_empty in Hterm.
      by destruct Hterm. }
    destruct (maxlength_keys _ Hne) as [n Hn].
    unfold estimate_from_pt. rewrite run_bind, run_lift, Hn.
    rewrite run_bind. unfold estimate_all in *. rewrite Hsplit.
    rewrite for_each_app, run_bind.
    destruct (for_each _ before _ w) as [r1 w1] eqn:Hrun1.
    simpl in Hbefore. subst r1.
    apply estimate_kinds_run in Hrun1 as [-> _].
    simpl. rewrite run_bind. unfold estimate_kind at 1.
    rewrite run_bind, run_lift. unfold getitem at 1. rewrite Hcat.
    fold (skipped skip k). rewrite Hskip.
    assert (∃ ic0, item0 ics = Return ic0) as [ic0 Hic0].
    { subst ics. destruct pre; simpl; eauto. }
    rewrite run_bind, run_lift, Hic0. cbv beta iota.
    rewrite run_bind, run_lift. cbv beta iota zeta.
    rewrite run_bind, Hics, for_each_app, run_bind.
    destruct (estimate_ics_returns trajectories pre
                (DataArray_new (kunit ic0), DataArray_new (qunit ic0)) w Hpre)
      as (arrays & ->).
    simpl. rewrite run_bind, run_estimate_ic, Hnone. done.
Qed.

Lemma StronglySorted_filter {A} (R : relation A) (P : A → Prop)
    `{!∀ x, Decision (P x)} (l : list A) :
  StronglySorted R l → StronglySorted R (filter P l).
Proof.
  statement_only.
  induction 1 as [|x l Hl IH Hx]; [constructor|].
  rewrite filter_cons. case_decide; [|done].
  constructor; [done|].
  apply Forall_forall. intros y [_ Hy]%list_elem_of_filter.
  rewrite Forall_forall in Hx. by apply Hx.
Qed.

(** X7: the table that [estimate_from_pt] returns lists its kinds in the
    byte order of their names, each kind once. *)
Theorem estimate_from_pt_kinds_sorted self trajectories skip verbose w ff w' :
  estimate_from_pt pt_estimate
    self trajectories skip verbose w = (Return ff, w') →
  StronglySorted String.le ff.*1 ∧ NoDup ff.*1.
Proof.
  intros (_ & _ & Hff & _)%estimate_from_pt_inv.
  rewrite (Forall2_entry_of_fst _ _ _ _ Hff). unfold processed_kinds. split.
  - apply StronglySorted_filter, StronglySorted_sorted.
  - apply NoDup_filter, NoDup_sorted_keys.
Qed.

(** X8: in the table that [estimate_from_pt] returns, the unit tags of an
    entry are those of the first instance of its kind in the catalog; the
    units of the other instances are not read. *)
Theorem estimate_from_pt_unit_tags self trajectories skip verbose w ff w'
    icname ks q0s :
  estimate_from_pt pt_estimate
    self trajectories skip verbose w = (Return ff, w') →
  (icname, (ks, q0s)) ∈ ff →
  ∃ ic0 ics, system_ics self !! icname = Some (ic0 :: ics) ∧
    unit_tag ks = kunit ic0 ∧ unit_tag q0s = qunit ic0.
Proof.
  intros (_ & _ & Hff & _)%estimate_from_pt_inv [j Hj]%list_elem_of_lookup_1.
  destruct (Forall2_lookup_r _ _ _ _ _ Hff Hj)
    as (k & _ & ic0 & ics & kqs & Hcat & _ & Heq).
  injection Heq as -> -> ->. by exists ic0, ics.
Qed.

(** X9: the trajectories that [generate_trajectories] generated from
    scratch are enough for [estimate_from_pt] under the same
    [skip_dihedrals]: when every processed kind has an instance and the
    estimator does not raise, the estimation returns a table and the model
    takes it over; no trajectory is missing. *)
Theorem generate_then_estimate self skip verbose verbose' w t w1 :
  no_cache self w →
  generate_trajectories pt_generate pickle_dump pickle_load
    self skip verbose w = (Return t, w1) →
  (∀ k, k ∈ processed_kinds self skip → system_ics self !! k ≠ Some []) →
  (∀ ic tr, returned (pt_estimate ic tr)) →
  ∃ ff, estimate_from_pt pt_estimate self t skip verbose' w1
          = (Return ff, with_val w1 ff).
Proof.
  intros Hc Hrun Hinst Hest.
  destruct (decide (terms self = ∅)) as [Ht|Ht].
  { by rewrite generate_trajectories_no_terms in Hrun by done. }
  pose proof Hrun as Hcalls.
  apply generate_trajectories_calls in Hcalls as (calls & _ & _ & Hret).
  destruct (Hret Hc t eq_refl) as [_ Hdom].
  rewrite generate_trajectories_scratch in Hrun by done.
  unfold generate_all in Hrun.
  destruct (for_each _ _ _ w) as [[t1|e] w2] eqn:Hg; [|done].
  apply generate_kinds_run in Hg as (calls' & _ & _ & Hret').
  destruct (Hret' t1 eq_refl) as (_ & _ & Hcat).
  apply estimate_from_pt_returns; [done|].
  intros k Hk. rewrite Forall_forall in Hcat.
  destruct (Hcat k) as [ics Hics]; [by apply elem_of_sorted_keys|].
  exists ics. split; [done|]. intros Hskip.
  assert (k ∈ processed_kinds self skip) as Hproc
    by by apply elem_of_processed_kinds.
  split.
  - intros ->. by apply (Hinst k).
  - apply Forall_forall. intros ic Hic.
    assert (is_Some (t !! name ic)) as [tr Htr].
    { apply elem_of_dom. rewrite Hdom. apply elem_of_list_to_set.
      apply list_elem_of_fmap_2. unfold instances.
      apply list_elem_of_bind. exists k. by rewrite Hics. }
    destruct (Hest ic tr) as [kq Hkq]. exists kq, tr. done.
Qed.

(** *** Failures and exports of [plot_pt] *)

(** Reading the cache changes nothing; it fails only on a file that does
    not deserialize. *)
Lemma read_cache_run self w :
  (∃ cached, read_cache pickle_load self w = (Return cached, w)) ∨
  (read_cache pickle_load self w = (Raise UnpicklingError, w) ∧
   ∃ fn b, fns_traj self = Some fn ∧ fs w !! fn = Some b ∧
           pickle_load b = None).
Proof.
  destruct (cache_cases self w) as [(fn & b & Hfn & Hb)|Hc].
  - destruct (pickle_load b) as [s|] eqn:Hs.
    + left. exists (Some s). by eapply read_cache_hit.
    + right. split; [by eapply read_cache_corrupt|]. by exists fn, b.
  - left. exists None. by apply read_cache_no_cache.
Qed.

(** What a run of [plot_pt] that returns went through. *)
Lemma plot_pt_return_inv self icname verbose w w' :
  plot_pt pt_generate pickle_dump pickle_load pt_render self icname verbose w
    = (Return tt, w') →
  ∃ cached ics sf w1,
    read_cache pickle_load self w = (Return cached, w) ∧
    system_ics self !! icname = Some ics ∧
    plot_generate pt_generate ics (default ∅ cached) w = (Return sf, w1) ∧
    match fns_traj self with
    | Some fn => fs w' = <[fn := pickle_dump sf]> (fs w)
    | None => fs w' = fs w
    end ∧
    exports w' = exports w ++ exports_of ics sf.
Proof.
  intros Hrun. unfold plot_pt in Hrun. rewrite run_bind in Hrun.
  destruct (read_cache_run self w) as [[cached Hread]|[Hread _]];
    rewrite Hread in Hrun; [|done].
  cbv zeta in Hrun. rewrite run_bind, run_lift in Hrun.
  unfold getitem in Hrun.
  destruct (system_ics self !! icname) as [ics|] eqn:Hcat; [|done].
  rewrite run_bind in Hrun.
  destruct (plot_generate pt_generate ics (default ∅ cached) w)
    as [[sf|e] w1] eqn:Hgen; [|done].
  exists cached, ics, sf, w1. split_and!; [done|done|done| |].
  all: unfold plot_generate in Hgen;
    apply plot_generate_run in Hgen as (calls & -> & _);
    rewrite run_bind in Hrun;
    destruct (run_write_cache self sf (with_calls w calls))
      as (w2 & Hw & _ & _ & Hex2 & Hfs2);
    rewrite Hw in Hrun; rewrite run_bind, run_lift in Hrun;
    destruct (plot_output_run ics sf w2)
      as (r3 & w3 & Hout & Hfs3 & _ & _ & Hex3 & _);
    rewrite Hout in Hrun; injection Hrun as -> <-.
  - rewrite Hfs3. destruct (fns_traj self); [done|by subst w2].
  - by rewrite (Hex3 eq_refl), Hex2.
Qed.

(** X10: [plot_pt] for a kind-name that the catalog lacks raises the
    [KeyError] of that name, once the cache is read: nothing is generated,
    written or exported. *)
Theorem plot_pt_unknown_kind self icname verbose w :
  system_ics self !! icname = None →
  (∀ fn b, fns_traj self = Some fn → fs w !! fn = Some b →
           is_Some (pickle_load b)) →
  plot_pt pt_generate pickle_dump pickle_load pt_render self icname verbose w
    = (Raise (KeyError icname), w).
Proof.
  intros Hcat Hok. unfold plot_pt. rewrite run_bind.
  destruct (read_cache_run self w)
    as [[cached ->]|[_ (fn & b & Hfn & Hb & Hs)]].
  - cbv zeta. rewrite run_bind, run_lift. unfold getitem. by rewrite Hcat.
  - destruct (Hok fn b Hfn Hb) as [s Hs']. congruence.
Qed.

(** X11: [plot_pt] with a cache file that does not deserialize raises the
    deserialization error and changes nothing, whatever the model and the
    kind asked for: no trajectory is generated and the file is not
    overwritten. *)
Theorem plot_pt_corrupt_cache self icname verbose w fn b :
  fns_traj self = Some fn → fs w !! fn = Some b → pickle_load b = None →
  plot_pt pt_generate pickle_dump pickle_load pt_render self icname verbose w
    = (Raise UnpicklingError, w).
Proof.
  intros Hfn Hb Hs. unfold plot_pt.
  by rewrite run_bind, (read_cache_corrupt _ _ _ _ Hfn Hb Hs).
Qed.

(** X12: a run of [plot_pt] that raises failed in one of two places.
    Either before the store is written: then no file is written and nothing
    is requested from the renderers, so the trajectories generated by then
    are lost, and what is raised is never the interrupt of a generation,
    which the loop catches.  Or in a renderer, after the store was written:
    then the file holds the store, and the error is the renderer's. *)
Theorem plot_pt_failure_cases self icname verbose w e w' :
  plot_pt pt_generate pickle_dump pickle_load pt_render self icname verbose w
    = (Raise e, w') →
  val w' = val w ∧
  ((fs w' = fs w ∧ exports w' = exports w ∧ e ≠ KeyboardInterrupt) ∨
   (∃ sf, (∃ log x, pt_render log x = Raise e) ∧
      match fns_traj self with
      | Some fn => fs w' = <[fn := pickle_dump sf]> (fs w)
      | None => fs w' = fs w
      end)).
Proof.
  intros Hrun. unfold plot_pt in Hrun. rewrite run_bind in Hrun.
  destruct (read_cache_run self w) as [[cached Hread]|[Hread _]];
    rewrite Hread in Hrun.
  2:{ injection Hrun as <- <-. split; [done|]. by left. }
  cbv zeta in Hrun. rewrite run_bind, run_lift in Hrun.
  unfold getitem in Hrun.
  destruct (system_ics self !! icname) as [ics|] eqn:Hcat.
  2:{ injection Hrun as <- <-. split; [done|]. by left. }
  rewrite run_bind in Hrun. unfold plot_generate in Hrun.
  destruct (for_each _ ics _ w) as [[sf|e1] w1] eqn:Hgen;
    apply plot_generate_run in Hgen as (calls & -> & _ & _ & Hraise & _).
  - rewrite run_bind in Hrun.
    destruct (run_write_cache self sf (with_calls w calls))
      as (w2 & Hw & _ & Hval2 & _ & Hfs2).
    rewrite Hw in Hrun. rewrite run_bind, run_lift in Hrun.
    destruct (plot_output_run ics sf w2)
      as (r3 & w3 & Hout & Hfs3 & _ & Hval3 & _ & Hraise3 & _).
    rewrite Hout in Hrun. injection Hrun as -> <-.
    split; [by rewrite Hval3, Hval2|]. right. exists sf.
    split; [by apply Hraise3|].
    rewrite Hfs3. destruct (fns_traj self); [done|by subst w2].
  - injection Hrun as <- <-. destruct (Hraise e1 eq_refl) as [Hne _].
    split; [done|]. by left.
Qed.


Lemma plot_generate_complete ics trajectories w :
  (∀ ic, ic ∈ ics → is_Some (trajectories !! name ic)) →
  plot_generate pt_generate ics trajectories w = (Return trajectories, w).
Proof.
  unfold plot_generate. induction ics as [|ic ics IH]; intros Hall; simpl.
  - done.
  - rewrite run_bind, run_plot_generate_ic.
    destruct (Hall ic) as [t ->]; [by left|].
    apply IH. intros ic' Hic'. apply Hall. by right.
Qed.

(** X15: when the cache already has a trajectory under the name of every
    instance of the kind, [plot_pt] calls no generator and writes back the
    store as it read it; it then plots and exports every instance and
    returns, unless a renderer raises. *)
Theorem plot_pt_complete_cache self icname verbose w fn b s0 ics :
  fns_traj self = Some fn → fs w !! fn = Some b → pickle_load b = Some s0 →
  system_ics self !! icname = Some ics →
  (∀ ic, ic ∈ ics → is_Some (s0 !! name ic)) →
  ∃ r w',
    plot_pt pt_generate pickle_dump pickle_load pt_render self icname verbose w
      = (r, w') ∧
    gen_log w' = gen_log w ∧
    fs w' = <[fn := pickle_dump s0]> (fs w) ∧
    (r = Return tt → exports w' = exports w ++ exports_of ics s0) ∧
    (∀ e, r = Raise e → ∃ log x, pt_render log x = Raise e) ∧
    ((∀ log x, returned (pt_render log x)) → r = Return tt).
Proof.
  intros Hfn Hb Hs Hcat Hall. unfold plot_pt.
  rewrite run_bind, (read_cache_hit _ _ _ _ _ Hfn Hb Hs). cbv zeta. simpl.
  rewrite run_bind, run_lift. unfold getitem. rewrite Hcat.
  rewrite run_bind, (plot_generate_complete ics s0 w Hall).
  rewrite run_bind.
  destruct (run_write_cache self s0 w) as (w2 & -> & Hlog2 & _ & Hex2 & Hfs2).
  rewrite run_bind, run_lift. rewrite Hfn in Hfs2.
  destruct (plot_output_run ics s0 w2)
    as (r3 & w3 & -> & Hfs3 & Hlog3 & _ & Hex3 & Hraise3 & Hok3).
  exists r3, w3. split_and!; [done|congruence|congruence| |done|done].
  intros Hr. by rewrite (Hex3 Hr), Hex2.
Qed.

(** X16: the store that a run of [plot_pt] wrote is taken wholesale by the
    next [generate_trajectories] with the same file name, when [cPickle]
    reads back what it wrote and the model has potential terms: the bulk
    path returns that store, with whatever kinds and steps the diagnostic
    run gave it, and generates nothing. *)
Theorem plot_then_generate self icname verbose skip verbose' w w1 fn :
  (∀ s, pickle_load (pickle_dump s) = Some s) →
  fns_traj self = Some fn → terms self ≠ ∅ →
  plot_pt pt_generate pickle_dump pickle_load pt_render self icname verbose w
    = (Return tt, w1) →
  ∃ sf, fs w1 !! fn = Some (pickle_dump sf) ∧
    generate_trajectories pt_generate pickle_dump pickle_load
      self skip verbose' w1 = (Return sf, w1).
Proof.
  intros Hrt Hfn Hne Hrun.
  apply plot_pt_return_inv in Hrun
    as (cached & ics & sf & w0 & _ & _ & _ & Hfs & _).
  rewrite Hfn in Hfs.
  assert (fs w1 !! fn = Some (pickle_dump sf)) as Hfile
    by (rewrite Hfs; apply lookup_insert_eq).
  exists sf. split; [done|].
  eapply generate_trajectories_hit; [done|done|exact Hfile|apply Hrt].
Qed.

(** *** Names of files and columns of the report *)

Lemma length_append (s1 s2 : string) :
  String.length (s1 +:+ s2) = String.length s1 + String.length s2.
Proof.
  statement_only. unfold String.app.
  induction s1 as [|c s1 IH]; simpl; [done|]. by rewrite IH.
Qed.

Lemma length_spaces n : String.length (spaces n) = n.
Proof.
  statement_only. induction n as [|n IH]; simpl; [done|]. by rewrite IH.
Qed.

(** X14: the name under which [plot_pt] files an instance has no slash, is
    as long as the name of the instance and differs from it only where that
    one has a slash; a name without a slash is kept as it is. *)
Theorem replace_slash_spec (s : string) :
  String.length (replace_slash s) = String.length s ∧
  (∀ i, String.get i (replace_slash s) ≠ Some "/"%char) ∧
  (∀ i c, String.get i s = Some c → c ≠ "/"%char →
          String.get i (replace_slash s) = Some c) ∧
  ((∀ i, String.get i s ≠ Some "/"%char) → replace_slash s = s).
Proof.
  statement_only. induction s as [|c s (IHlen & IHno & IHkeep & IHid)]; simpl.
  { split_and!; [done|by intros []|by intros []|done]. }
  split_and!.
  - by rewrite IHlen.
  - intros [|i]; simpl; [|apply IHno].
    destruct (Ascii.eqb c "/") eqn:Hc.
    + by intros [=].
    + apply Ascii.eqb_neq in Hc. by intros [= ->].
  - intros [|i] c'; simpl; [|apply IHkeep].
    intros [= ->] Hne. apply Ascii.eqb_neq in Hne. by rewrite Hne.
  - intros Hno. assert (c ≠ "/"%char) as Hc.
    { intros ->. by apply (Hno 0). }
    apply Ascii.eqb_neq in Hc. rewrite Hc. f_equal. apply IHid.
    intros i. apply (Hno (S i)).
Qed.

(** X17: in the console report every kind-name of the potential-term set
    is padded to the same width, the value of [maxlength], with at least
    two blanks after the longest name; a name longer than the width is not
    cut. *)
Theorem descr_aligned (names : list string) (n : nat) :
  maxlength names = Return n →
  (∀ k, k ∈ names →
     String.length (descr n k) = n ∧ String.length k + 2 ≤ n) ∧
  (∃ k, k ∈ names ∧ String.length k + 2 = n) ∧
  (∀ m k, String.length (descr m k) = m `max` String.length k).
Proof.
  statement_only. intros Hn.
  assert (Hwidth : ∀ m k,
            String.length (descr m k) = m `max` String.length k).
  { intros m k. unfold descr. rewrite length_append, length_spaces. lia. }
  destruct names as [|k0 names]; [done|]. unfold maxlength in Hn.
  remember (max_list (String.length <$> k0 :: names)) as m eqn:Hm.
  injection Hn as <-.
  split_and!; [|  |done].
  - intros k Hk.
    assert (String.length k ≤ m) as Hle.
    { rewrite Hm. apply max_list_elem_of_le. by apply list_elem_of_fmap_2. }
    rewrite Hwidth. lia.
  - assert (m ∈ String.length <$> k0 :: names) as Hin
      by (rewrite Hm; by apply max_list_elem_of).
    apply list_elem_of_fmap in Hin as (k & Hk & Hin). exists k.
    split; [done|]. lia.
Qed.

(** *** The stages of [run] *)

(** X18: when the three stages of [run] return, the table they return is
    the table that the model holds; it lists the kinds of the potential-term
    set that are not dihedrals, in the byte order of their names, and for
    every kind both arrays are as long as the list of instances of that kind
    in the catalog. *)
Theorem run_stages_table self w fftab w' :
  run_stages pt_generate pt_estimate cost_estimate pickle_dump pickle_load
    self w = (Return fftab, w') →
  val w' = fftab ∧
  fftab.*1 = processed_kinds self true ∧
  ∀ icname ks q0s, (icname, (ks, q0s)) ∈ fftab →
    ∃ ics, system_ics self !! icname = Some ics ∧
      length (data ks) = length ics ∧ length (data q0s) = length ics.
Proof.
  unfold run_stages. rewrite run_bind.
  destruct (generate_trajectories _ _ _ self true true w)
    as [[t|e] w1]; [|done].
  rewrite run_bind.
  destruct (estimate_from_pt pt_estimate self t true true w1)
    as [[ff|e] w2] eqn:Hest; [|done].
  apply estimate_from_pt_inv in Hest as (_ & -> & Hff & _).
  rewrite run_bind, run_refine_cost. cbn [val with_val].
  destruct (cost_estimate ff) as [fcs|e]; [|done].
  rewrite run_ret. intros [= <- <-]. cbn [val with_val].
  assert (Hupd : ∀ j, FFTable_update_fcs fcs ff !! j =
            (λ e : string * (DataArray Val * DataArray Val),
               match fcs !! e.1 with
               | Some k =>
                   (e.1, ({| unit_tag := unit_tag e.2.1;
                             data := replicate (length (data e.2.1)) k |},
                          e.2.2))
               | None => e
               end) <$> ff !! j).
  { intros j. unfold FFTable_update_fcs. by rewrite list_lookup_fmap. }
  split_and!; [done| |].
  - rewrite <-(Forall2_entry_of_fst _ _ _ _ Hff).
    unfold FFTable_update_fcs. rewrite <-list_fmap_compose.
    apply list_fmap_ext. intros j [k [ks q0s]] _. simpl.
    by destruct (fcs !! k).
  - intros icname ks q0s [j Hj]%list_elem_of_lookup_1.
    rewrite Hupd in Hj.
    destruct (ff !! j) as [[k [ks0 q0s0]]|] eqn:Hffj; [|done].
    destruct (Forall2_lookup_r _ _ _ _ _ Hff Hffj) as (k' & _ & He).
    apply entry_of_parallel in He as [Hk (ics & Hcat & Hlk & Hlq & _)].
    simpl in Hk, Hlk, Hlq. subst k'.
    simpl in Hj. destruct (fcs !! k) as [kc|]; injection Hj as <- <- <-.
    + exists ics. simpl. by rewrite length_replicate.
    + by exists ics.
Qed.

(** X19: when a stage of [run] raises, the later stages are not entered,
    and the model holds the table of the last stage that updated it: its
    table from before when the generation or the estimation raised, the
    table of stage 1 when the refinement raised. *)
Theorem run_stages_failure self w e w' :
  run_stages pt_generate pt_estimate cost_estimate pickle_dump pickle_load
    self w = (Raise e, w') →
  (∃ w1, generate_trajectories pt_generate pickle_dump pickle_load
           self true true w = (Raise e, w1) ∧ w' = w1 ∧ val w' = val w) ∨
  (∃ t w1, generate_trajectories pt_generate pickle_dump pickle_load
             self true true w = (Return t, w1) ∧
     estimate_from_pt pt_estimate self t true true w1 = (Raise e, w1) ∧
     w' = w1 ∧ val w' = val w) ∨
  (∃ t w1 ff, generate_trajectories pt_generate pickle_dump pickle_load
                self true true w = (Return t, w1) ∧
     estimate_from_pt pt_estimate self t true true w1
       = (Return ff, with_val w1 ff) ∧
     cost_estimate ff = Raise e ∧ w' = with_val w1 ff).
Proof.
  unfold run_stages. rewrite run_bind.
  destruct (generate_trajectories _ _ _ self true true w)
    as [[t|e0] w1] eqn:Hgen.
  2:{ intros [= <- <-]. left. exists w1. split_and!; [done|done|].
      destruct (decide (terms self = ∅)) as [Ht|Ht].
      { rewrite generate_trajectories_no_terms in Hgen by done.
        by simplify_eq. }
      destruct (cache_cases self w) as [(fn & b & Hfn & Hb)|Hc].
      - destruct (pickle_load b) as [s|] eqn:Hs.
        + by rewrite (generate_trajectories_hit _ _ _ _ _ _ _ Ht Hfn Hb Hs)
            in Hgen.
        + rewrite (generate_trajectories_corrupt _ _ _ _ _ _ Ht Hfn Hb Hs)
            in Hgen. by simplify_eq.
      - rewrite generate_trajectories_scratch in Hgen by done.
        unfold generate_all in Hgen.
        destruct (for_each _ _ _ w) as [[t1|e1] w2] eqn:Hg; [done|].
        injection Hgen as <- <-.
        by apply generate_kinds_run in Hg as (calls & -> & _). }
  assert (val w1 = val w) as Hval.
  { destruct (decide (terms self = ∅)) as [Ht|Ht].
    { by rewrite generate_trajectories_no_terms in Hgen by done. }
    destruct (cache_cases self w) as [(fn & b & Hfn & Hb)|Hc].
    - destruct (pickle_load b) as [s|] eqn:Hs.
      + rewrite (generate_trajectories_hit _ _ _ _ _ _ _ Ht Hfn Hb Hs)
          in Hgen. by simplify_eq.
      + by rewrite (generate_trajectories_corrupt _ _ _ _ _ _ Ht Hfn Hb Hs)
          in Hgen.
    - rewrite generate_trajectories_scratch in Hgen by done.
      unfold generate_all in Hgen.
      destruct (for_each _ _ _ w) as [[t1|e1] w2] eqn:Hg; [|done].
      destruct (run_write_cache self t1 w2) as (w3 & Hw & _ & Hv & _).
      rewrite Hw in Hgen. injection Hgen as <- <-. rewrite Hv.
      by apply generate_kinds_run in Hg as (calls & -> & _). }
  rewrite run_bind.
  destruct (estimate_from_pt pt_estimate self t true true w1)
    as [[ff|e0] w2] eqn:Hest.
  2:{ intros [= <- <-]. right. left.
      pose proof Hest as Hinv. apply estimate_from_pt_inv in Hinv as ->.
      exists t, w1. split_and!; done. }
  pose proof Hest as Hinv.
  apply estimate_from_pt_inv in Hinv as (_ & -> & _).
  rewrite run_bind, run_refine_cost. cbn [val with_val].
  destruct (cost_estimate ff) as [fcs|e0] eqn:Hcost; [done|].
  intros [= <- <-]. right. right. exists t, w1, ff. split_and!; done.
Qed.

End Properties.

(** ** Runs of the driver on the small molecule *)

Section Runs.

Import Demo.

Lemma pot_terms_nonempty : pot_terms ≠ ∅.
Proof.
  intros H. apply (f_equal (λ m : gmap string unit, m !! "bond/C.H")) in H.
  vm_compute in H. discriminate H.
Qed.

Lemma dom_pot_terms :
  dom pot_terms = dom ics.
Proof. vm_compute. reflexivity. Qed.

Lemma gen_returns log ic steps : returned (gen log ic steps).
Proof. by eexists. Qed.

Lemma est_returns ic t : returned (est ic t).
Proof. by eexists. Qed.

Lemma estimable_demo k :
  is_Some (pot_terms !! k) → estimable est (prog None) trajs true k.
Proof.
  intros Hk. apply elem_of_dom in Hk.
  assert (dom pot_terms
          = {[ "bond/C.H"; "bend/H.C.H"; "dihed/H.C.C.H" ]}) as Hdom
    by (vm_compute; reflexivity).
  rewrite Hdom in Hk. clear Hdom.
  apply elem_of_union in Hk as [Hk|Hk];
    [apply elem_of_union in Hk as [Hk|Hk]|];
    apply elem_of_singleton in Hk; subst k.
  - exists [bond0; bond1]. split; [vm_compute; reflexivity|].
    intros _. split; [done|].
    repeat constructor; eexists _, _; split; vm_compute; reflexivity.
  - exists [bend0]. split; [vm_compute; reflexivity|].
    intros _. split; [done|].
    repeat constructor; eexists _, _; split; vm_compute; reflexivity.
  - exists [dihed0]. split; [vm_compute; reflexivity|].
    intros Hskip. vm_compute in Hskip. discriminate Hskip.
Qed.

(** C1, at a model without potential terms: a file name is configured and
    the file holds a store that [cPickle] reads, yet [generate_trajectories]
    raises [ValueError] at line 83, before the cache is looked at, and does
    not return the store; the generator is not at fault, it is never
    called.  On the same model and file [plot_pt], which reads the cache
    without taking a maximum first, finds the trajectory of the first bond
    in the store and generates the second only. *)
Theorem C1_empty_terms_cache_not_returned :
  let self := prog_no_terms (Some "trajs.pp") in
  let w := world_file "trajs.pp" (dump store0) in
  let plot := plot_pt gen dump load render_ok self "bond/C.H" true w in
  fns_traj self = Some "trajs.pp" ∧
  fs w !! "trajs.pp" = Some (dump store0) ∧
  load (dump store0) = Some store0 ∧
  generate_trajectories gen dump load self true true w
    = (Raise ValueError, w) ∧
  plot.1 = Return tt ∧
  gen_log plot.2 = [(bond1, Some 51)].
Proof.
  intros. split_and!;
    first [vm_compute; reflexivity | vm_compute; discriminate].
Qed.

Lemma cache_hit_returns_store_run :
  let self := prog (Some "trajs.pp") in
  let w := world_file "trajs.pp" (dump store0) in
  ∃ w1, generate_trajectories gen dump load self true true w
          = (Return store0, w1) ∧
    gen_log w1 = gen_log w ∧ fs w1 = fs w ∧
    ∃ w2, generate_trajectories gen dump load self true true w1
            = (Return store0, w2) ∧
      gen_log w2 = gen_log w1.
Proof.
  apply (cache_hit_returns_store gen dump load (prog (Some "trajs.pp"))
           true true (world_file "trajs.pp" (dump store0))
           "trajs.pp" (dump store0) store0).
  - exact pot_terms_nonempty.
  - reflexivity.
  - vm_compute. reflexivity.
  - reflexivity.
Defined.

(** C6, at a model without potential terms: the file exists and [cPickle]
    cannot read it, yet the exception that reaches the caller of
    [generate_trajectories] is the [ValueError] of line 83, not the
    deserialization error: the file is never opened.  On the same model and
    file [plot_pt] raises the deserialization error. *)
Theorem C6_empty_terms_corrupt_store_value_error :
  let self := prog_no_terms (Some "trajs.pp") in
  let w := world_file "trajs.pp" None in
  fns_traj self = Some "trajs.pp" ∧
  fs w !! "trajs.pp" = Some None ∧
  load None = None ∧
  generate_trajectories gen dump load self true true w
    = (Raise ValueError, w) ∧
  ValueError ≠ UnpicklingError ∧
  plot_pt gen dump load render_ok self "bond/C.H" true w
    = (Raise UnpicklingError, w).
Proof.
  intros. split_and!;
    first [vm_compute; reflexivity | vm_compute; discriminate].
Qed.

Lemma corrupt_store_fails_fast_run :
  let self := prog (Some "trajs.pp") in
  let w := world_file "trajs.pp" None in
  (∃ e, generate_trajectories gen dump load self true true w = (Raise e, w)) ∧
  (terms self ≠ ∅ →
     generate_trajectories gen dump load self true true w
       = (Raise UnpicklingError, w)).
Proof.
  apply (corrupt_store_fails_fast gen dump load (prog (Some "trajs.pp"))
           true true (world_file "trajs.pp" None) "trajs.pp" None).
  - reflexivity.
  - vm_compute. reflexivity.
  - reflexivity.
Defined.

(** C9, at a model without potential terms, dihedrals not skipped: the
    configured file exists and holds a store with a dihedral entry, and
    what [generate_trajectories] gives is not the store as deserialized but
    the [ValueError] of line 83. *)
Theorem C9_empty_terms_store_not_returned :
  let self := prog_no_terms (Some "trajs.pp") in
  let w := world_file "trajs.pp" (dump store0) in
  let run := generate_trajectories gen dump load self false true w in
  fns_traj self = Some "trajs.pp" ∧
  fs w !! "trajs.pp" = Some (dump store0) ∧
  load (dump store0) = Some store0 ∧
  store0 !! "dihed/H.C.C.H/0" = Some 11 ∧
  run.1 ≠ Return store0 ∧
  run = (Raise ValueError, w).
Proof.
  intros. split_and!;
    first [vm_compute; reflexivity | vm_compute; discriminate].
Qed.

Lemma cache_hit_frame_run :
  let self := prog (Some "trajs.pp") in
  let w := world_file "trajs.pp" (dump store0) in
  (generate_trajectories gen dump load self true true w).2 = w ∧
  (generate_trajectories gen dump load self false true w).1 = Return store0 ∧
  store0 !! "dihed/H.C.C.H/0" = Some 11.
Proof.
  destruct (cache_hit_frame gen dump load (prog (Some "trajs.pp"))
              true true (world_file "trajs.pp" (dump store0))
              "trajs.pp" (dump store0))
    as (Hframe & Hskip & Hret & _).
  - reflexivity.
  - vm_compute. reflexivity.
  - split_and!.
    + exact Hframe.
    + rewrite (Hskip false true). apply Hret.
      * exact pot_terms_nonempty.
      * reflexivity.
    + vm_compute. reflexivity.
Defined.



Lemma C2_fftable_witness :
  table1.*1 = processed_kinds (prog None) true ∧
  (∀ k, k ∈ table1.*1 ↔
        is_Some (terms (prog None) !! k) ∧ skipped true k = false) ∧
  ∀ icname ks q0s, (icname, (ks, q0s)) ∈ table1 →
    ∃ ics, system_ics (prog None) !! icname = Some ics ∧
      length (data ks) = length ics ∧ length (data q0s) = length ics ∧
      ∀ i ic, ics !! i = Some ic →
        ∃ t k q0, trajs !! name ic = Some t ∧
          est ic t = Return (k, q0) ∧
          data ks !! i = Some k ∧ data q0s !! i = Some q0.
Proof.
  apply (C2_fftable_arrays_parallel est (prog None) trajs true true
           (world ∅) table1 (world_table table1)).
  vm_compute. reflexivity.
Defined.



Lemma C10_empty_kind_witness :
  (∃ e, estimate_from_pt est (prog_no_bond None) trajs true true (world ∅)
          = (Raise e, world ∅)) ∧
  estimate_from_pt est (prog_no_bond None) trajs true true (world ∅)
    = (Raise IndexError, world ∅).
Proof.
  destruct (C10_empty_kind_index_error est (prog_no_bond None) trajs
              true true (world ∅) "bond/C.H") as [Hraise Hindex].
  - vm_compute. eauto.
  - reflexivity.
  - vm_compute. reflexivity.
  - split; [exact Hraise|].
    apply (Hindex ["bend/H.C.H"] ["dihed/H.C.C.H"]
             [("bend/H.C.H",
               (mkDataArray "kjmol/rad**2" [5], mkDataArray "deg" [12]))]).
    + vm_compute. reflexivity.
    + vm_compute. reflexivity.
Defined.

(** C3, for the stage-1 bulk path: a file name is configured, no file
    exists, and the user interrupts the second of the three calls of the
    generator.  The trajectory of the bend is complete by then, yet
    [generate_trajectories] raises [KeyboardInterrupt] and writes no file:
    the completed trajectory is neither returned nor persisted. *)
Theorem C3_bulk_interrupt_not_persisted :
  let self := prog (Some "trajs.pp") in
  let run := generate_trajectories gen_interrupt dump load self true true
               (world ∅) in
  gen_interrupt [] bend0 None = Return 0 ∧
  gen_interrupt [(bend0, None)] bond0 None = Raise KeyboardInterrupt ∧
  run.1 = Raise KeyboardInterrupt ∧
  gen_log run.2 = [(bend0, None); (bond0, None)] ∧
  fs run.2 !! "trajs.pp" = None.
Proof. vm_compute. done. Qed.

(** The diagnostic path on the same interrupt: the second call, for the
    second bond, is interrupted; the run returns and the trajectory of the
    first bond is in the file. *)
Lemma plot_pt_interrupt_persisted :
  let self := prog (Some "trajs.pp") in
  let run := plot_pt gen_interrupt dump load render_ok self "bond/C.H" true (world ∅) in
  gen_interrupt [(bond0, Some 51)] bond1 (Some 51) = Raise KeyboardInterrupt ∧
  run.1 = Return tt ∧
  gen_log run.2 = [(bond0, Some 51); (bond1, Some 51)] ∧
  fs run.2 !! "trajs.pp" = Some (dump {[ "bond/C.H/0" := 0 ]}).
Proof. vm_compute. done. Qed.

(** The diagnostic path when the first trajectory file cannot be written:
    the run raises the error of the renderer, after both bonds were
    generated and the store was written. *)
Lemma plot_pt_render_failure_after_write :
  let self := prog (Some "trajs.pp") in
  let run := plot_pt gen dump load render_fail self "bond/C.H" true
               (world ∅) in
  run.1 = Raise (OtherError "IOError") ∧
  gen_log run.2 = [(bond0, Some 51); (bond1, Some 51)] ∧
  fs run.2 !! "trajs.pp"
    = Some (dump {[ "bond/C.H/0" := 0; "bond/C.H/1" := 1 ]}) ∧
  length (exports run.2) = 2.
Proof.
  intros. split_and!; vm_compute; reflexivity.
Qed.

Lemma C4_plot_pt_witness :
  let w := world_file "trajs.pp" (dump store0) in
  let run := plot_pt gen dump load render_ok (prog (Some "trajs.pp"))
               "bond/C.H" true w in
  run.1 = Return tt ∧
  ∃ calls, gen_log run.2 = gen_log w ++ calls ∧
    calls.*1 `sublist_of` [bond0; bond1] ∧
    Forall (λ c, c.2 = Some 51 ∧ store0 !! name c.1 = None) calls ∧
    ∃ sf, fs run.2 = <["trajs.pp" := dump sf]> (fs w) ∧ store0 ⊆ sf ∧
      ∀ ic, ic ∈ [bond0; bond1] →
        is_Some (sf !! name ic) ∨
        ∃ i, calls !! i = Some (ic, Some 51) ∧
             outcome gen w calls i ic = Raise KeyboardInterrupt.
Proof.
  intros w run.
  destruct (C4_plot_pt_merges_cache gen dump load render_ok
              (prog (Some "trajs.pp")) "bond/C.H" true w "trajs.pp"
              (dump store0) store0 [bond0; bond1] run.1 run.2)
    as (calls & Hlog & Hsub & Hall & Hcases).
  - reflexivity.
  - vm_compute. reflexivity.
  - reflexivity.
  - vm_compute. reflexivity.
  - apply surjective_pairing.
  - destruct Hcases as [(e & Hr & _)|
                        (sf & Hfs & Hsubs & _ & _ & Hics & _ & Hok)].
    + vm_compute in Hr. discriminate Hr.
    + split; [apply Hok; intros log x; by eexists|].
      exists calls. split_and!; [done|done|done|].
      exists sf. done.
Defined.

Lemma C7_refine_cost_witness :
  ∃ w', refine_cost cost (prog None) true (world_table table1)
          = (Return (val w'), w') ∧
    fs w' = ∅ ∧ gen_log w' = [] ∧ exports w' = [] ∧
    length (val w') = 2 ∧
    ∀ i icname ks q0s, table1 !! i = Some (icname, (ks, q0s)) →
      ∃ ks', val w' !! i = Some (icname, (ks', q0s)) ∧
        unit_tag ks' = unit_tag ks ∧
        length (data ks') = length (data ks) ∧
        match ({[ "bond/C.H" := 7 ]} : gmap string nat) !! icname with
        | Some k => ∀ v, v ∈ data ks' → v = k
        | None => ks' = ks
        end.
Proof.
  apply (C7_refine_cost_updates_fcs_only cost (prog None) true
           (world_table table1) {[ "bond/C.H" := 7 ]}).
  reflexivity.
Defined.

(** *** Runs for the further properties *)

Lemma generate_trajectories_store_values_witness :
  ∃ tr, gen [(bend0, None); (bond0, None)] bond1 None = Return tr ∧
        store_scratch !! "bond/C.H/1" = Some tr.
Proof.
  destruct (generate_trajectories_store_values gen dump load (prog None)
              true true (world ∅) store_scratch
              (generate_trajectories gen dump load (prog None) true true
                 (world ∅)).2) as [Hval _].
  - exact I.
  - vm_compute. reflexivity.
  - apply (Hval 2 bond1).
    + vm_compute. reflexivity.
    + intros j ic' Hj Hic'. exfalso.
      apply lookup_lt_Some in Hic'. vm_compute in Hic'. lia.
Defined.

Lemma generate_trajectories_unknown_kind_witness :
  ∃ w', generate_trajectories gen dump load (prog_no_dihed None) true true
          (world ∅) = (Raise (KeyError "dihed/H.C.C.H"), w') ∧
        fs w' = ∅.
Proof.
  destruct (generate_trajectories_unknown_kind gen dump load
              (prog_no_dihed None) true true (world ∅) "dihed/H.C.C.H")
    as [_ Hkey].
  - exact I.
  - vm_compute. eauto.
  - vm_compute. reflexivity.
  - apply (Hkey ["bend/H.C.H"; "bond/C.H"] []).
    + vm_compute. reflexivity.
    + repeat constructor; vm_compute; eauto.
    + intros log ic. apply gen_returns.
Defined.

Lemma generate_trajectories_twice_witness :
  let w1 := (generate_trajectories gen dump load (prog (Some "trajs.pp"))
               true true (world ∅)).2 in
  generate_trajectories gen dump load (prog (Some "trajs.pp")) false true w1
    = (Return store_scratch, w1).
Proof.
  intros w1.
  apply (generate_trajectories_twice gen dump load (prog (Some "trajs.pp"))
           true true false true (world ∅) store_scratch w1 "trajs.pp").
  - intros s. reflexivity.
  - reflexivity.
  - vm_compute. reflexivity.
Defined.

Lemma generate_trajectories_returns_witness :
  ∃ t w', generate_trajectories gen dump load (prog None) true true (world ∅)
            = (Return t, w').
Proof.
  apply (generate_trajectories_returns gen dump load (prog None) true true
           (world ∅)).
  - exact pot_terms_nonempty.
  - exact I.
  - intros k Hk. apply elem_of_dom. apply elem_of_dom in Hk.
    simpl in *. by rewrite <-dom_pot_terms.
  - intros log ic. apply gen_returns.
Defined.

Lemma estimate_from_pt_total_witness :
  ∃ ff, estimate_from_pt est (prog None) trajs true true (world ∅)
          = (Return ff, with_val (world ∅) ff) ∧
        ff.*1 = processed_kinds (prog None) true.
Proof.
  apply (estimate_from_pt_total est (prog None) trajs true true (world ∅)).
  - exact pot_terms_nonempty.
  - exact estimable_demo.
Defined.

Lemma estimate_from_pt_missing_trajectory_witness :
  estimate_from_pt est (prog None) trajs_partial true true (world ∅)
    = (Raise (KeyError "bond/C.H/1"), world ∅).
Proof.
  destruct (estimate_from_pt_missing_trajectory est (prog None) trajs_partial
              true true (world ∅) "bond/C.H" [bond0; bond1] bond1)
    as [_ Hkey].
  - vm_compute. eauto.
  - reflexivity.
  - vm_compute. reflexivity.
  - apply list_elem_of_further, list_elem_of_here.
  - vm_compute. reflexivity.
  - apply (Hkey ["bend/H.C.H"] ["dihed/H.C.C.H"] [bond0] []).
    + vm_compute. reflexivity.
    + reflexivity.
    + eexists. vm_compute. reflexivity.
    + repeat constructor. eexists _, _. split; vm_compute; reflexivity.
Defined.

Lemma estimate_from_pt_kinds_sorted_witness :
  StronglySorted String.le table1.*1 ∧ NoDup table1.*1.
Proof.
  apply (estimate_from_pt_kinds_sorted est (prog None) trajs true true
           (world ∅) table1 (world_table table1)).
  vm_compute. reflexivity.
Defined.

Lemma estimate_from_pt_unit_tags_witness :
  ∃ ic0 ics, system_ics (prog None) !! "bond/C.H" = Some (ic0 :: ics) ∧
    "kjmol/A**2" = kunit ic0 ∧ "A" = qunit ic0.
Proof.
  apply (estimate_from_pt_unit_tags est (prog None) trajs true true
           (world ∅) table1 (world_table table1) "bond/C.H"
           (mkDataArray "kjmol/A**2" [3; 4]) (mkDataArray "A" [10; 10])).
  - vm_compute. reflexivity.
  - apply list_elem_of_further, list_elem_of_here.
Defined.

Lemma generate_then_estimate_witness :
  let w1 := (generate_trajectories gen dump load (prog None) true true
               (world ∅)).2 in
  ∃ ff, estimate_from_pt est (prog None) store_scratch true true w1
          = (Return ff, with_val w1 ff).
Proof.
  intros w1.
  apply (generate_then_estimate gen est dump load (prog None) true true true
           (world ∅) store_scratch w1).
  - exact I.
  - vm_compute. reflexivity.
  - intros k Hk.
    assert (processed_kinds (prog None) true = ["bend/H.C.H"; "bond/C.H"])
      as Hkinds by (vm_compute; reflexivity).
    rewrite Hkinds in Hk.
    apply elem_of_cons in Hk as [->|Hk];
      [|apply list_elem_of_singleton in Hk as ->];
      vm_compute; discriminate.
  - exact est_returns.
Defined.

Lemma plot_pt_unknown_kind_witness :
  plot_pt gen dump load render_ok (prog None) "opdist/C.H.H.H" true (world ∅)
    = (Raise (KeyError "opdist/C.H.H.H"), world ∅).
Proof.
  apply (plot_pt_unknown_kind gen dump load render_ok (prog None) "opdist/C.H.H.H"
           true (world ∅)).
  - vm_compute. reflexivity.
  - intros fn b Hfn. discriminate Hfn.
Defined.

Lemma plot_pt_corrupt_cache_witness :
  plot_pt gen dump load render_ok (prog_no_terms (Some "trajs.pp")) "bond/C.H" true
    (world_file "trajs.pp" None)
    = (Raise UnpicklingError, world_file "trajs.pp" None).
Proof.
  apply (plot_pt_corrupt_cache gen dump load render_ok
           (prog_no_terms (Some "trajs.pp"))
           "bond/C.H" true (world_file "trajs.pp" None) "trajs.pp" None).
  - reflexivity.
  - vm_compute. reflexivity.
  - reflexivity.
Defined.

Lemma plot_pt_failure_cases_witness :
  let w := world ∅ in
  let w' := (plot_pt gen dump load render_fail (prog (Some "trajs.pp"))
               "bond/C.H" true w).2 in
  val w' = val w ∧
  ((fs w' = fs w ∧ exports w' = exports w ∧
    OtherError "IOError" ≠ KeyboardInterrupt) ∨
   (∃ sf, (∃ log x, render_fail log x = Raise (OtherError "IOError")) ∧
      match fns_traj (prog (Some "trajs.pp")) with
      | Some fn => fs w' = <[fn := dump sf]> (fs w)
      | None => fs w' = fs w
      end)).
Proof.
  intros w w'.
  apply (plot_pt_failure_cases gen dump load render_fail
           (prog (Some "trajs.pp")) "bond/C.H" true w
           (OtherError "IOError") w').
  vm_compute. reflexivity.
Defined.


Lemma plot_pt_complete_cache_witness :
  let w := world_file "trajs.pp" (dump trajs) in
  ∃ r w',
    plot_pt gen dump load render_ok (prog (Some "trajs.pp")) "bond/C.H" true w
      = (r, w') ∧
    gen_log w' = gen_log w ∧
    fs w' = <["trajs.pp" := dump trajs]> (fs w) ∧
    (r = Return tt → exports w' = exports w ++ exports_of [bond0; bond1] trajs) ∧
    (∀ e, r = Raise e → ∃ log x, render_ok log x = Raise e) ∧
    ((∀ log x, returned (render_ok log x)) → r = Return tt).
Proof.
  intros w.
  apply (plot_pt_complete_cache gen dump load render_ok
           (prog (Some "trajs.pp")) "bond/C.H" true w "trajs.pp"
           (dump trajs) trajs [bond0; bond1]).
  - reflexivity.
  - vm_compute. reflexivity.
  - reflexivity.
  - vm_compute. reflexivity.
  - intros ic Hic.
    apply elem_of_cons in Hic as [->|Hic];
      [|apply list_elem_of_singleton in Hic as ->];
      vm_compute; eauto.
Defined.

Lemma plot_then_generate_witness :
  let w := world_file "trajs.pp" (dump store0) in
  let w1 := (plot_pt gen dump load render_ok (prog (Some "trajs.pp")) "bond/C.H" true
               w).2 in
  ∃ sf, fs w1 !! "trajs.pp" = Some (dump sf) ∧
    generate_trajectories gen dump load (prog (Some "trajs.pp")) true true w1
      = (Return sf, w1).
Proof.
  intros w w1.
  apply (plot_then_generate gen dump load render_ok (prog (Some "trajs.pp"))
           "bond/C.H" true true true w w1 "trajs.pp").
  - intros s. reflexivity.
  - reflexivity.
  - exact pot_terms_nonempty.
  - vm_compute. reflexivity.
Defined.

Lemma descr_aligned_witness :
  (∀ k, k ∈ ["bend/H.C.H"; "bond/C.H"] →
     String.length (descr 12 k) = 12 ∧ String.length k + 2 ≤ 12) ∧
  (∃ k, k ∈ ["bend/H.C.H"; "bond/C.H"] ∧ String.length k + 2 = 12) ∧
  (∀ m k, String.length (descr m k) = m `max` String.length k).
Proof.
  apply (descr_aligned ["bend/H.C.H"; "bond/C.H"] 12). reflexivity.
Defined.

Lemma run_stages_table_witness :
  let w' := (run_stages gen est cost dump load (prog None) (world ∅)).2 in
  val w' = table2 ∧
  table2.*1 = processed_kinds (prog None) true ∧
  ∀ icname ks q0s, (icname, (ks, q0s)) ∈ table2 →
    ∃ ics, system_ics (prog None) !! icname = Some ics ∧
      length (data ks) = length ics ∧ length (data q0s) = length ics.
Proof.
  intros w'.
  apply (run_stages_table gen est cost dump load (prog None) (world ∅)
           table2 w').
  vm_compute. reflexivity.
Defined.

Lemma run_stages_failure_witness :
  let w' := (run_stages gen_interrupt est cost dump load (prog None)
               (world ∅)).2 in
  val w' = val (world ∅).
Proof.
  intros w'.
  destruct (run_stages_failure gen_interrupt est cost dump load (prog None)
              (world ∅) KeyboardInterrupt w')
    as [(w1 & _ & _ & Hval)|[(t & w1 & _ & _ & _ & Hval)|(t & w1 & ff & Hgen & _)]].
  - vm_compute. reflexivity.
  - exact Hval.
  - exact Hval.
  - vm_compute in Hgen. discriminate Hgen.
Defined.

Lemma plot_pt_interrupt_safe_witness :
  let run := plot_pt gen_interrupt dump load render_ok (prog (Some "trajs.pp"))
               "bond/C.H" true (world ∅) in
  ∃ calls, gen_log run.2 = gen_log (world ∅) ++ calls ∧
    ((∀ i ic e, calls !! i = Some (ic, Some 51) →
        outcome gen_interrupt (world ∅) calls i ic = Raise e →
        e = KeyboardInterrupt) →
     ∃ sf, fs run.2 = <["trajs.pp" := dump sf]> (fs (world ∅)) ∧
       (∀ i ic, calls !! i = Some (ic, Some 51) →
          match outcome gen_interrupt (world ∅) calls i ic with
          | Return t => sf !! name ic = Some t
          | Raise _ => sf !! name ic = None
          end) ∧
       (run.1 = Return tt ∨
        ∃ e log x, run.1 = Raise e ∧ render_ok log x = Raise e) ∧
       ((∀ log x, returned (render_ok log x)) → run.1 = Return tt)).
Proof.
  intros run.
  apply (plot_pt_interrupt_safe gen_interrupt dump load render_ok
           (prog (Some "trajs.pp")) "bond/C.H" true (world ∅) None
           [bond0; bond1] "trajs.pp" run.1 run.2).
  - vm_compute. reflexivity.
  - vm_compute. reflexivity.
  - reflexivity.
  - apply (bool_decide_unpack (NoDup (name <$> [bond0; bond1]))).
    vm_compute. exact I.
  - apply surjective_pairing.
Defined.

End Runs.
